(** * Godot MCP server: process executor and LSP client

    A shallow embedding of [src/godot/executor.ts] and
    [src/godot/lsp-client.ts].  Both files are event driven: the code
    registers callbacks (process events, socket events, timers) and the
    Node.js event loop runs them one at a time.  A callback is modelled as
    a function from state to state, and a run of the program as the list
    of events the event loop delivers, folded from the initial state.

    JavaScript numbers are modelled by [Z]: the numbers that occur here
    (exit codes, correlation ids, line and column numbers) are integers,
    and below 2^53 the double arithmetic of [+ 1] and [++] is that of
    [Z].  A statement about the sum of a number that comes from outside
    (the positions of a diagnostic) carries that bound as a hypothesis. *)

From stdpp Require Import gmap strings list fin_maps.
From Stdlib Require Import ZArith Lia Ascii.

Local Open Scope Z_scope.
#[local] Set Warnings "-clear-no-such-hyp".

(** ** Values shared by both components *)

(** What a [catch] clause can receive: an [Error] object, of which the
    code reads [message], or any other thrown value. *)
Inductive Thrown :=
| ThrownError (message : string)
| ThrownOther.

(** The outcome of awaiting a promise.  [Forever] is a promise that no
    event of the run settles. *)
Inductive Awaited (A : Type) :=
| Fulfilled (a : A)
| Rejected (e : Thrown)
| Forever.
Arguments Fulfilled {A} a.
Arguments Rejected {A} e.
Arguments Forever {A}.

(** [s || undefined] on a string: the empty string is falsy. *)
Definition or_undefined (s : string) : option string :=
  match s with
  | EmptyString => None
  | String _ _ => Some s
  end.

(** * Process executor ([src/godot/executor.ts]) *)

Module Executor.

(** [GodotProcessResult] of [types/index.ts]; optional fields are options. *)
Record GodotProcessResult := mkResult {
  success : bool;
  output : string;
  error : option string;
  exitCode : option Z
}.

(** [ExecutionOptions]: every field optional. *)
Record ExecutionOptions := mkOptions {
  timeout : option Z;
  captureOutput : option bool;
  workingDirectory : option string
}.

Definition noOptions : ExecutionOptions := mkOptions None None None.

Inductive Signal := SIGTERM.

(** The callbacks [execute] registers; the event loop runs one per event.
    [Close None] is a [close] event whose [code] is [null]. *)
Inductive ChildEvent :=
| StdoutData (data : string)
| StderrData (data : string)
| TimerFired
| Close (code : option Z)
| ErrorEvent (message : string).

(** The variables the callbacks of one [execute] call close over, the
    timer, the signals sent to the child, and the promise. *)
Record Call := mkCall {
  outputAcc : string;          (* let output *)
  errorOutput : string;        (* let errorOutput *)
  timerArmed : bool;           (* timeoutId is scheduled *)
  kills : list Signal;         (* childProcess.kill calls, latest first *)
  settled : option GodotProcessResult   (* the promise of the call *)
}.

Definition start : Call := mkCall EmptyString EmptyString true [] None.

(** [resolve(r)]: only the first call settles a promise. *)
Definition resolve (r : GodotProcessResult) (c : Call) : Call :=
  match settled c with
  | Some _ => c
  | None => mkCall (outputAcc c) (errorOutput c) (timerArmed c) (kills c) (Some r)
  end.

(** The timer leaves the schedule, because it fired or because
    [clearTimeout(timeoutId)] was called. *)
Definition unscheduled (c : Call) : Call :=
  mkCall (outputAcc c) (errorOutput c) false (kills c) (settled c).

Definition clearTimeout (c : Call) : Call := unscheduled c.

Definition kill (s : Signal) (c : Call) : Call :=
  mkCall (outputAcc c) (errorOutput c) (timerArmed c) (s :: kills c) (settled c).

Definition timedOut (out : string) : GodotProcessResult :=
  mkResult false out (Some "Process timed out"%string) (Some (-1)).

(** One callback.  The data listeners exist only when [captureOutput] is
    set; the timer callback runs only while the timer is scheduled. *)
Definition handle (capture : bool) (c : Call) (ev : ChildEvent) : Call :=
  match ev with
  | StdoutData data =>
      if capture
      then mkCall (outputAcc c +:+ data) (errorOutput c) (timerArmed c) (kills c) (settled c)
      else c
  | StderrData data =>
      if capture
      then mkCall (outputAcc c) (errorOutput c +:+ data) (timerArmed c) (kills c) (settled c)
      else c
  | TimerFired =>
      if timerArmed c
      then
        let c1 := unscheduled c in
        let c2 := kill SIGTERM c1 in
        resolve (timedOut (outputAcc c2)) c2
      else c
  | Close code =>
      let c1 := clearTimeout c in
      resolve (mkResult (bool_decide (code = Some 0))
                        (outputAcc c1)
                        (or_undefined (errorOutput c1))
                        code) c1
  | ErrorEvent message =>
      let c1 := clearTimeout c in
      resolve (mkResult false EmptyString (Some message) (Some (-1))) c1
  end.

Definition run (capture : bool) (evs : list ChildEvent) : Call :=
  fold_left (handle capture) evs start.

(** What [spawn] does: throw synchronously, or hand back a child whose
    events the event loop will deliver in this order. *)
Inductive SpawnOutcome :=
| SpawnThrows (e : Thrown)
| Spawned (events : list ChildEvent).

Record SpawnCall := mkSpawn {
  spawnFile : string;
  spawnArgs : list string;
  spawnCwd : string
}.

(** The executor object. *)
Record GodotExecutor := mkExecutor {
  godotPath : string;
  projectPath : string
}.

Section WithWorld.

(** The operating system, as far as the executor observes it. *)
Variable spawn : SpawnCall -> SpawnOutcome.

(** [execute(args, options)].  A throw inside the promise executor
    rejects the promise.  The [timeout] option is a delay: it decides
    where [TimerFired] stands among the events of the child, which is
    part of what [spawn] hands back here.  Next to the promise's outcome
    the model returns the signals the call sent to the child. *)
Definition execute (self : GodotExecutor) (args : list string)
    (options : ExecutionOptions) : Awaited GodotProcessResult * list Signal :=
  let capture := default true (captureOutput options) in
  let cwd := default (projectPath self) (workingDirectory options) in
  match spawn (mkSpawn (godotPath self) args cwd) with
  | SpawnThrows e => (Rejected e, [])
  | Spawned evs =>
      let c := run capture evs in
      (match settled c with
       | Some r => Fulfilled r
       | None => Forever
       end, kills c)
  end.

Definition runScript (self : GodotExecutor) (scriptPath : string) :
    Awaited GodotProcessResult * list Signal :=
  execute self ["--path"; projectPath self; "--headless"; "--script"; scriptPath]%string
          noOptions.

(** The file system as the executor observes it: [writeFile] and [unlink]
    either succeed or throw, and the set of existing paths follows. *)
Variable writeFile : string -> string -> option Thrown.
Variable unlink : string -> option Thrown.

(** [path.join] of the platform Node runs on: it joins its arguments with
    the platform's separator and normalises the result.  The executor
    only passes the path it returns on. *)
Variable join : string -> string -> string.
Variable tmpdir : string.
Variable randomUUID : string.

Definition tempFileName : string :=
  join tmpdir ("godot_mcp_" +:+ randomUUID +:+ ".gd").

(** The result built by the [catch] clause of [runInlineScript]. *)
Definition caught (e : Thrown) : GodotProcessResult :=
  mkResult false EmptyString
           (Some (match e with
                  | ThrownError message => message
                  | ThrownOther => "Unknown error"%string
                  end))
           (Some (-1)).

(** [runInlineScript(code)], from a file system holding the paths [fs].
    Returns the promise's outcome and the paths that exist afterwards: a
    successful [writeFile] creates the file, a successful [unlink]
    removes it, a failed one leaves the paths as they were. *)
Definition runInlineScript (self : GodotExecutor) (code : string)
    (fs : gset string) : Awaited GodotProcessResult * gset string :=
  let tempFile := tempFileName in
  match writeFile tempFile code with
  | Some e => (Fulfilled (caught e), fs)
  | None =>
      let fs1 := {[ tempFile ]} ∪ fs in
      match fst (runScript self tempFile) with
      | Forever => (Forever, fs1)
      | Rejected e => (Fulfilled (caught e), fs1)
      | Fulfilled result =>
          match unlink tempFile with
          | Some e => (Fulfilled (caught e), fs1)
          | None => (Fulfilled result, fs1 ∖ {[ tempFile ]})
          end
      end
  end.

End WithWorld.

(** *** Traces *)

Definition is_data (ev : ChildEvent) : bool :=
  match ev with
  | StdoutData _ | StderrData _ => true
  | _ => false
  end.

(** The text the child wrote to standard output, resp. standard error,
    during a run. *)
Fixpoint stdout_text (evs : list ChildEvent) : string :=
  match evs with
  | [] => EmptyString
  | StdoutData data :: evs' => data +:+ stdout_text evs'
  | _ :: evs' => stdout_text evs'
  end.

Fixpoint stderr_text (evs : list ChildEvent) : string :=
  match evs with
  | [] => EmptyString
  | StderrData data :: evs' => data +:+ stderr_text evs'
  | _ :: evs' => stderr_text evs'
  end.

(** Whether the child has ended within a trace.  Node emits [close] once
    the process has ended and its output streams are closed: a trace
    with no [close] event is that of a child still running. *)
Definition closed (evs : list ChildEvent) : bool :=
  existsb (λ ev, match ev with Close _ => true | _ => false end) evs.

(** What the accumulators hold: nothing without [captureOutput]. *)
Definition captured (capture : bool) (text : string) : string :=
  if capture then text else EmptyString.

End Executor.

(** * LSP client ([src/godot/lsp-client.ts]) *)

Module LSP.

Local Set Warnings "-register-all".

(** A JSON value, as [JSON.parse] returns it.  [JNum] is a number with an
    integer value, [JFrac] any other number; an object lists its members
    in source order. *)
Inductive JSValue :=
| JNull
| JBool (b : bool)
| JNum (n : Z)
| JFrac
| JStr (s : string)
| JArr (items : list JSValue)
| JObj (members : list (string * JSValue)).

(** [interface LSPMessage], the shape of what the client writes. *)
Record LSPMessage := mkMessage {
  jsonrpc : string;
  id : option Z;
  method : option string;
  params : option JSValue
}.

(** Reading a member of an object: [JSON.parse] keeps the last of several
    members with one name. *)
Definition member (key : string) (members : list (string * JSValue)) : option JSValue :=
  fold_left (fun found kv => if decide (kv.1 = key) then Some kv.2 else found)
            members None.

(** [v.key] for the keys [id] and [params]: a [TypeError] on [null]
    ([None]), [undefined] ([Some None]) on every value that is not an
    object with that member. *)
Definition property (key : string) (v : JSValue) : option (option JSValue) :=
  match v with
  | JNull => None
  | JObj members => Some (member key members)
  | _ => Some None
  end.

(** Truthiness of a value or [undefined]. *)
Definition truthy (v : option JSValue) : bool :=
  match v with
  | None => false
  | Some JNull => false
  | Some (JBool b) => b
  | Some (JNum n) => negb (n =? 0)
  | Some JFrac => true
  | Some (JStr s) => match s with EmptyString => false | _ => true end
  | Some (JArr _) => true
  | Some (JObj _) => true
  end.

(** [Map.has] and [Map.get] at a value: the keys of the map are numbers,
    and only an equal number finds one. *)
Definition keyOf (v : option JSValue) : option Z :=
  match v with
  | Some (JNum n) => Some n
  | _ => None
  end.

Definition has (v : option JSValue) (m : gmap Z Z) : bool :=
  match keyOf v with
  | Some n => bool_decide (is_Some (m !! n))
  | None => false
  end.

Definition get (v : option JSValue) (m : gmap Z Z) : option Z :=
  match keyOf v with
  | Some n => m !! n
  | None => None
  end.

(** [data.split('\n')] and [.filter(Boolean)]. *)
Fixpoint split_newline (s : string) : list string :=
  match s with
  | EmptyString => [EmptyString]
  | String c rest =>
      if Ascii.eqb c "010"%char
      then EmptyString :: split_newline rest
      else match split_newline rest with
           | [] => [String c EmptyString]
           | line :: lines => String c line :: lines
           end
  end.

Definition nonempty (s : string) : bool :=
  match s with EmptyString => false | _ => true end.

Definition lines_of (data : string) : list string :=
  List.filter nonempty (split_newline data).

(** A [net.Socket].  Node sets [destroyed] before it emits [error]; the
    [connect] listener runs once, while the socket is still connecting. *)
Record Socket := mkSocket {
  connecting : bool;
  destroyed : bool;
  written : list LSPMessage       (* oldest first *)
}.

(** The correlation ids of the requests written to a socket, in order
    (notifications carry none). *)
Definition requestIds (sk : Socket) : list Z := omap id (written sk).

(** How a request promise is settled. *)
Inductive Settlement :=
| Resolved (value : option JSValue)
| RejectedWith (message : string).

(** The client object and the runtime around it.  Sockets are named by
    their creation index, request promises by the id of their request.
    [pendingRequests] maps an id to the promise its [resolve] and [reject]
    belong to. *)
Record Client := mkClient {
  client : option nat;                    (* this.client *)
  messageId : Z;                          (* this.messageId *)
  pendingRequests : gmap Z Z;             (* this.pendingRequests *)
  sockets : list Socket;                  (* every socket created so far *)
  timers : gset Z;                        (* scheduled setTimeout callbacks, by request id *)
  settlements : list (Z * Settlement);    (* calls of resolve/reject on request promises, oldest first *)
  handshakes : gmap Z nat;                (* request promise -> the connect() call chained on it *)
  connects : list (nat * bool)            (* calls of connect()'s resolve, oldest first *)
}.

Definition fresh : Client := mkClient None 0 ∅ [] ∅ [] ∅ [].

(** How many times [resolve] or [reject] was called on the promise of
    request [n]. *)
Definition settledTimes (n : Z) (st : Client) : nat :=
  length (filter (λ po, po.1 = n) (settlements st)).

Definition set_client (v : option nat) (st : Client) : Client :=
  mkClient v (messageId st) (pendingRequests st) (sockets st) (timers st)
           (settlements st) (handshakes st) (connects st).
Definition set_messageId (v : Z) (st : Client) : Client :=
  mkClient (client st) v (pendingRequests st) (sockets st) (timers st)
           (settlements st) (handshakes st) (connects st).
Definition set_pendingRequests (v : gmap Z Z) (st : Client) : Client :=
  mkClient (client st) (messageId st) v (sockets st) (timers st)
           (settlements st) (handshakes st) (connects st).
Definition set_sockets (v : list Socket) (st : Client) : Client :=
  mkClient (client st) (messageId st) (pendingRequests st) v (timers st)
           (settlements st) (handshakes st) (connects st).
Definition set_timers (v : gset Z) (st : Client) : Client :=
  mkClient (client st) (messageId st) (pendingRequests st) (sockets st) v
           (settlements st) (handshakes st) (connects st).
Definition set_settlements (v : list (Z * Settlement)) (st : Client) : Client :=
  mkClient (client st) (messageId st) (pendingRequests st) (sockets st) (timers st)
           v (handshakes st) (connects st).
Definition set_handshakes (v : gmap Z nat) (st : Client) : Client :=
  mkClient (client st) (messageId st) (pendingRequests st) (sockets st) (timers st)
           (settlements st) v (connects st).
Definition set_connects (v : list (nat * bool)) (st : Client) : Client :=
  mkClient (client st) (messageId st) (pendingRequests st) (sockets st) (timers st)
           (settlements st) (handshakes st) v.

(** [socket.write(JSON.stringify(message) + '\n')], kept as the message. *)
Definition write (s : nat) (m : LSPMessage) (st : Client) : Client :=
  match sockets st !! s with
  | Some sk =>
      set_sockets (<[ s := mkSocket (connecting sk) (destroyed sk) (written sk ++ [m]) ]>
                     (sockets st)) st
  | None => st
  end.

(** [resolve(b)] of the promise returned by the [k]-th [connect()]. *)
Definition resolveConnect (k : nat) (b : bool) (st : Client) : Client :=
  set_connects (connects st ++ [(k, b)]) st.

(** The value a [connect()] promise has: that of the first [resolve]. *)
Definition connectResult (k : nat) (st : Client) : option bool :=
  snd <$> List.find (fun kb => bool_decide (kb.1 = k)) (connects st).

(** [sendNotification(method, params)]. *)
Definition sendNotification (meth : string) (pars : JSValue) (st : Client) : Client :=
  match client st with
  | None => st
  | Some s => write s (mkMessage "2.0" None (Some meth) (Some pars)) st
  end.

(** A call of [resolve] or [reject] on the promise of request [p].  The
    first call settles it and runs what [connect] chained on it:
    [.then] sends [initialized] and resolves [connect()] to true,
    [.catch] resolves it to false.  These reactions touch only the
    socket log and the [connect()] promise, so running them at once
    instead of at the end of the current callback changes nothing. *)
Definition settle (p : Z) (o : Settlement) (st : Client) : Client :=
  let first := bool_decide (p ∉ (settlements st).*1) in
  let st1 := set_settlements (settlements st ++ [(p, o)]) st in
  if first then
    match handshakes st !! p with
    | Some k =>
        match o with
        | Resolved _ =>
            resolveConnect k true (sendNotification "initialized" (JObj []) st1)
        | RejectedWith _ => resolveConnect k false st1
        end
    | None => st1
    end
  else st1.

(** [sendRequest(method, params)] up to the point where the promise is
    returned: [None] is the throw of [Not connected], otherwise the id. *)
Definition sendRequest (meth : string) (pars : JSValue) (st : Client) : option Z * Client :=
  match client st with
  | None => (None, st)
  | Some s =>
      let id := messageId st + 1 in
      let st1 := set_messageId id st in
      let message := mkMessage "2.0" (Some id) (Some meth) (Some pars) in
      let st2 := set_pendingRequests (<[ id := id ]> (pendingRequests st1)) st1 in
      let st3 := write s message st2 in
      (Some id, set_timers ({[ id ]} ∪ timers st3) st3)
  end.

(** The callback of the [setTimeout] in [sendRequest]. *)
Definition onTimeout (id : Z) (st : Client) : Client :=
  match pendingRequests st !! id with
  | Some _ =>
      settle id (RejectedWith "Request timeout")
             (set_pendingRequests (delete id (pendingRequests st)) st)
  | None => st
  end.

(** [connect()] up to the point where the promise is returned. *)
Definition connect (st : Client) : Client :=
  let s := length (sockets st) in
  set_client (Some s) (set_sockets (sockets st ++ [mkSocket true false []]) st).

Definition destroy (s : nat) (st : Client) : Client :=
  match sockets st !! s with
  | Some sk => set_sockets (<[ s := mkSocket false true (written sk) ]> (sockets st)) st
  | None => st
  end.

Definition disconnect (st : Client) : Client :=
  match client st with
  | Some s => set_client None (destroy s st)
  | None => st
  end.

Definition isConnected (st : Client) : bool :=
  match client st with
  | Some s =>
      match sockets st !! s with
      | Some sk => negb (destroyed sk)
      | None => false
      end
  | None => false
  end.

(** The arguments of the [initialize] request; their values play no role. *)
Definition initializeParams : JSValue := JObj [].

(** The connect listener of the [k]-th [connect()]. *)
Definition onConnect (k : nat) (st : Client) : Client :=
  match sendRequest "initialize" initializeParams st with
  | (None, st1) => resolveConnect k false st1
  | (Some id, st1) => set_handshakes (<[ id := k ]> (handshakes st1)) st1
  end.

Section WithParser.

(** [JSON.parse]: [None] when it throws a [SyntaxError]. *)
Variable JSON_parse : string -> option JSValue.

(** The body of the [for] loop over [messages], inside the [try]: any
    exception leaves the loop for the empty [catch]. *)
Fixpoint handleMessages (messages : list string) (st : Client) : Client :=
  match messages with
  | [] => st
  | msg :: rest =>
      match JSON_parse msg with
      | None => st
      | Some parsed =>
          match property "id" parsed with
          | None => st
          | Some idv =>
              if truthy idv && has idv (pendingRequests st)
              then
                match keyOf idv, get idv (pendingRequests st), property "params" parsed with
                | Some n, Some p, Some value =>
                    handleMessages rest
                      (settle p (Resolved value)
                         (set_pendingRequests (delete n (pendingRequests st)) st))
                | _, _, _ => st
                end
              else handleMessages rest st
          end
      end
  end.

Definition handleMessage (data : string) (st : Client) : Client :=
  handleMessages (lines_of data) st.

(** What the event loop can run on a client. *)
Inductive Event :=
| CallConnect
| CallDisconnect
| CallRequest (meth : string) (pars : JSValue)
| SocketConnected (s : nat)
| SocketError (s : nat)
| SocketData (s : nat) (data : string)
| Timeout (id : Z).

Definition step (st : Client) (ev : Event) : Client :=
  match ev with
  | CallConnect => connect st
  | CallDisconnect => disconnect st
  | CallRequest meth pars => snd (sendRequest meth pars st)
  | SocketConnected s =>
      match sockets st !! s with
      | Some sk =>
          if connecting sk && negb (destroyed sk)
          then onConnect s
                 (set_sockets (<[ s := mkSocket false false (written sk) ]> (sockets st)) st)
          else st
      | None => st
      end
  | SocketError s =>
      match sockets st !! s with
      | Some _ => resolveConnect s false (destroy s st)
      | None => st
      end
  | SocketData s data =>
      match sockets st !! s with
      | Some _ => handleMessage data st
      | None => st
      end
  | Timeout id =>
      if bool_decide (id ∈ timers st)
      then onTimeout id (set_timers (timers st ∖ {[ id ]}) st)
      else st
  end.

Definition run (evs : list Event) : Client := fold_left step evs fresh.

(** How many callbacks of a run, started in [st], took the entry of
    request [n] out of [pendingRequests]. *)
Fixpoint removals (n : Z) (st : Client) (evs : list Event) : nat :=
  match evs with
  | [] => 0%nat
  | ev :: evs' =>
      let st' := step st ev in
      ((if bool_decide (is_Some (pendingRequests st !! n)
                        ∧ pendingRequests st' !! n = None)
        then 1 else 0)
       + removals n st' evs')%nat
  end.

End WithParser.

(** *** [parseDiagnostics] *)

Record Position := mkPosition {
  line : Z;
  column : Z
}.

Record Range := mkRange {
  rangeStart : Position;          (* range.start *)
  rangeEnd : Position             (* range.end *)
}.

(** [LSPDiagnostic]: a record as the server reports it. *)
Record LSPDiagnostic := mkDiagnostic {
  range : Range;
  message : string;
  severity : Z
}.

(** [GDScriptError] and [GDScriptWarning]: the same fields, the literal
    [severity] tells them apart. *)
Record GDScriptIssue := mkIssue {
  issueLine : Z;
  issueColumn : Z;
  issueMessage : string;
  issueSeverity : string
}.

Record Diagnostics := mkDiagnostics {
  errors : list GDScriptIssue;
  warnings : list GDScriptIssue
}.

(** [Number.isSafeInteger]: the integers on which [+ 1] in doubles is
    [+ 1] in [Z]; from 2^53 on the sum of the code is rounded. *)
Definition isSafeInteger (x : Z) : Prop := - 2 ^ 53 < x < 2 ^ 53.

(** The [entry] built for one record, with its [severity] spread in.
    The two sums are those of the code on safe integers. *)
Definition entry (sev : string) (diag : LSPDiagnostic) : GDScriptIssue :=
  mkIssue (line (rangeStart (range diag)) + 1)
          (column (rangeStart (range diag)) + 1)
          (message diag)
          sev.

(** The body of the loop over [diagnostics]: [push] on one of the lists. *)
Definition collect (acc : Diagnostics) (diag : LSPDiagnostic) : Diagnostics :=
  if severity diag =? 1
  then mkDiagnostics (errors acc ++ [entry "error" diag]) (warnings acc)
  else if severity diag =? 2
  then mkDiagnostics (errors acc) (warnings acc ++ [entry "warning" diag])
  else acc.

(** [parseDiagnostics(params)]; [None] is a [params] that is nullish or
    has no [diagnostics], which [|| []] turns into the empty list. *)
Definition parseDiagnostics (diagnostics : option (list LSPDiagnostic)) : Diagnostics :=
  fold_left collect (default [] diagnostics) (mkDiagnostics [] []).

End LSP.

(** * Invariants of the LSP client *)

Module Invariants.

Import LSP.

(** The invariant of the map: an entry is keyed by an id that was
    issued and belongs to the promise of that id; and a promise was
    settled once if its id was issued and its entry is gone, and never
    otherwise. *)
Record CoreInv (st : Client) : Prop := mkCoreInv {
  inv_nonneg : 0 ≤ messageId st;
  inv_entry : ∀ n p, pendingRequests st !! n = Some p → 1 ≤ n ≤ messageId st ∧ p = n;
  inv_settled : ∀ n, settledTimes n st =
                  if bool_decide (1 ≤ n ≤ messageId st ∧ pendingRequests st !! n = None)
                  then 1%nat else 0%nat
}.

(** The timer of a pending request is still scheduled. *)
Definition TimerInv (st : Client) : Prop :=
  ∀ n, is_Some (pendingRequests st !! n) → n ∈ timers st.

(** What one callback may do to the counter and the map: ids only grow,
    an entry never comes back, and an id issued during the callback is
    still pending at its end. *)
Record Advance (st st' : Client) : Prop := mkAdvance {
  adv_messageId : messageId st ≤ messageId st';
  adv_entry : ∀ n p, pendingRequests st' !! n = Some p →
                pendingRequests st !! n = Some p ∨ messageId st < n;
  adv_issued : ∀ n, messageId st < n ≤ messageId st' →
                 is_Some (pendingRequests st' !! n)
}.

(** A callback that only takes entries out. *)
Definition Shrink (st st' : Client) : Prop :=
  messageId st' = messageId st
  ∧ ∀ n p, pendingRequests st' !! n = Some p → pendingRequests st !! n = Some p.

(** Two states with the same counter, map and log. *)
Definition same_core (st st' : Client) : Prop :=
  messageId st' = messageId st
  ∧ pendingRequests st' = pendingRequests st
  ∧ settlements st' = settlements st.

(** Taking the entry of [n] out and settling its promise. *)
Definition retire (n : Z) (o : Settlement) (st : Client) : Client :=
  settle n o (set_pendingRequests (delete n (pendingRequests st)) st).

(** The invariant of the sockets: [this.client] is the socket created
    last, and the ids written so far, socket after socket, are
    1, 2, ..., [messageId]. *)
Record SockInv (st : Client) : Prop := mkSockInv {
  inv_client : ∀ s, client st = Some s → S s = length (sockets st);
  inv_ids : sockets st ≫= requestIds = seqZ 1 (messageId st)
}.

(** Two states with the same client, counter and written ids. *)
Definition same_wire (st st' : Client) : Prop :=
  client st' = client st
  ∧ messageId st' = messageId st
  ∧ length (sockets st') = length (sockets st)
  ∧ sockets st' ≫= requestIds = sockets st ≫= requestIds.

End Invariants.

(** * Text helpers of JavaScript used by the code *)

Module Text.

(** [s.split(sep)] for a one-character separator. *)
Fixpoint split_on (sep : ascii) (s : string) : list string :=
  match s with
  | EmptyString => [EmptyString]
  | String c rest =>
      if Ascii.eqb c sep
      then EmptyString :: split_on sep rest
      else match split_on sep rest with
           | [] => [String c EmptyString]
           | field :: fields => String c field :: fields
           end
  end.

(** [s.split(sep).filter(Boolean)]. *)
Definition tokens (sep : ascii) (s : string) : list string :=
  List.filter LSP.nonempty (split_on sep s).

(** [s.replace(/c/g, rep)] for a one-character pattern. *)
Fixpoint replaceAll (c : ascii) (rep : string) (s : string) : string :=
  match s with
  | EmptyString => EmptyString
  | String a rest =>
      if Ascii.eqb a c
      then rep +:+ replaceAll c rep rest
      else String a (replaceAll c rep rest)
  end.

(** [s.includes(c)] for a one-character string. *)
Fixpoint includes (c : ascii) (s : string) : bool :=
  match s with
  | EmptyString => false
  | String a rest => Ascii.eqb a c || includes c rest
  end.

Definition backslash : ascii := "092"%char.
Definition quotation : ascii := "034"%char.
Definition space : ascii := "032"%char.
Definition linefeed : ascii := "010"%char.

(** [lines.map(l => l + '\n').join('')]: what a peer writes that ends
    every envelope with a newline, as [sendRequest] does. *)
Fixpoint framed (lines : list string) : string :=
  match lines with
  | [] => EmptyString
  | l :: rest => l +:+ String linefeed (framed rest)
  end.

(** [args.join(' ')]. *)
Fixpoint joined (args : list string) : string :=
  match args with
  | [] => EmptyString
  | [a] => a
  | a :: rest => a +:+ String space (joined rest)
  end.

End Text.

(** * Configuration ([src/utils/config.ts]) and the constructors *)

Module Config.

(** [GodotConfig]; [lspPort] is [None] when [parseInt] gave [NaN]. *)
Record GodotConfig := mkConfig {
  godotPath : string;
  projectPath : string;
  lspPort : option Z;
  debugMode : bool
}.

(** What the code reads of the Node [process] and of [os]. *)
Record Process := mkProcess {
  platform : string;               (* process.platform *)
  env : gmap string string;        (* process.env *)
  cwd : string;                    (* process.cwd() *)
  homedir : string                 (* os.homedir() *)
}.

(** [v || d] where [v] is a string or [undefined]. *)
Definition or_else (v : option string) (d : string) : string :=
  match v with
  | Some (String _ _ as s) => s
  | _ => d
  end.

(** [getDefaultGodotPath()]: on Windows the first of three candidate
    paths, of which only the third depends on the home directory. *)
Definition getDefaultGodotPath (p : Process) : string :=
  if decide (platform p = "win32"%string)
  then
    let paths := ["C:\Program Files\Godot\Godot.exe"%string;
                  "C:\Program Files (x86)\Godot\Godot.exe"%string;
                  homedir p +:+ "\Godot\Godot.exe"] in
    match paths with
    | first :: _ => first
    | [] => EmptyString
    end
  else if decide (platform p = "darwin"%string)
  then "/Applications/Godot.app/Contents/MacOS/Godot"%string
  else "/usr/bin/godot"%string.

Section WithParseInt.

(** [parseInt(s, 10)]: [None] is [NaN]. *)
Variable parseInt : string -> option Z.

Definition getConfigFromEnv (p : Process) : GodotConfig :=
  mkConfig (or_else (env p !! "GODOT_PATH"%string) (getDefaultGodotPath p))
           (or_else (env p !! "GODOT_PROJECT_PATH"%string) (cwd p))
           (parseInt (or_else (env p !! "GODOT_LSP_PORT"%string) "6005"))
           (bool_decide (env p !! "DEBUG"%string = Some "true"%string)).

End WithParseInt.

Record Validation := mkValidation {
  valid : bool;
  validationErrors : list string       (* errors *)
}.

Definition validateConfig (config : GodotConfig) : Validation :=
  let errors := [] in
  let errors :=
    if LSP.nonempty (godotPath config) then errors
    else errors ++ ["GODOT_PATH is required"%string] in
  let errors :=
    if LSP.nonempty (projectPath config) then errors
    else errors ++ ["GODOT_PROJECT_PATH is required"%string] in
  mkValidation (bool_decide (length errors = 0%nat)) errors.

(** [new GodotExecutor(godotPath?, projectPath?)] and [createExecutor],
    with the module's [config]. *)
Definition newExecutor (config : GodotConfig) (godotPath' projectPath' : option string) :
    Executor.GodotExecutor :=
  Executor.mkExecutor (or_else godotPath' (godotPath config))
                      (or_else projectPath' (projectPath config)).

Definition createExecutor := newExecutor.

End Config.

(** * The operations of the LSP client built on [sendRequest] *)

Module Operations.

Import LSP.

(** [getFileUri(filePath)]. *)
Definition getFileUri (filePath : string) : string :=
  "file:///" +:+ Text.replaceAll Text.backslash "/" filePath.

(** [result?.key] for the keys [items] and [contents], which no array,
    string, number or boolean has. *)
Definition optionalMember (key : string) (v : option JSValue) : option JSValue :=
  match v with
  | Some (JObj members) => member key members
  | _ => None
  end.

(** What [getCompletions] returns for a result:
    [Array.isArray(result) ? result : result?.items || []]. *)
Definition completionsOf (result : option JSValue) : JSValue :=
  match result with
  | Some (JArr items) => JArr items
  | _ =>
      match optionalMember "items" result with
      | Some v => if truthy (Some v) then v else JArr []
      | None => JArr []
      end
  end.

(** What [getHover] returns: [result?.contents || null]. *)
Definition hoverOf (result : option JSValue) : JSValue :=
  match optionalMember "contents" result with
  | Some v => if truthy (Some v) then v else JNull
  | None => JNull
  end.

(** What [findDefinitions] returns:
    [Array.isArray(result) ? result : [result]]; an element is [None]
    when it is [undefined]. *)
Definition definitionsOf (result : option JSValue) : list (option JSValue) :=
  match result with
  | Some (JArr items) => Some <$> items
  | _ => [result]
  end.

(** The arguments of the position requests. *)
Definition positionParams (filePath : string) (line column : Z) : JSValue :=
  JObj [("textDocument"%string, JObj [("uri"%string, JStr (getFileUri filePath))]);
        ("position"%string, JObj [("line"%string, JNum line);
                                  ("character"%string, JNum column)])].

(** The common shape of [validateFile], [getCompletions], [getHover]
    and [findDefinitions]: a request, what to make of its result inside
    the [try] ([None] when that throws), and what to answer instead. *)
Record Operation (R : Type) := mkOperation {
  opMethod : string;
  opParams : JSValue;
  opResult : option JSValue -> option R;
  opFallback : R
}.
Arguments mkOperation {R}.
Arguments opMethod {R}.
Arguments opParams {R}.
Arguments opResult {R}.
Arguments opFallback {R}.

Definition getCompletions (filePath : string) (line column : Z) : Operation JSValue :=
  mkOperation "textDocument/completion" (positionParams filePath line column)
              (fun result => Some (completionsOf result)) (JArr []).

Definition getHover (filePath : string) (line column : Z) : Operation JSValue :=
  mkOperation "textDocument/hover" (positionParams filePath line column)
              (fun result => Some (hoverOf result)) JNull.

Definition findDefinitions (filePath : string) (line column : Z) :
    Operation (list (option JSValue)) :=
  mkOperation "textDocument/definition" (positionParams filePath line column)
              (fun result => Some (definitionsOf result)) [].

(** [validateFile]; the reading of a result as the diagnostics the cast
    in [parseDiagnostics] takes it for is left to [asDiagnostics], [None]
    when [parseDiagnostics] throws on it. *)
Definition validateFile (asDiagnostics : option JSValue -> option (option (list LSPDiagnostic)))
    (filePath : string) : Operation Diagnostics :=
  mkOperation "textDocument/publishDiagnostics"
              (JObj [("uri"%string, JStr (getFileUri filePath))])
              (fun result => parseDiagnostics <$> asDiagnostics result)
              (mkDiagnostics [] []).

(** Where an operation stands: suspended at [await this.connect()],
    suspended at [await this.sendRequest(...)], or returned. *)
Inductive Task (R : Type) :=
| AwaitConnect (k : nat)
| AwaitResponse (n : Z)
| Returned (r : R).
Arguments AwaitConnect {R} k.
Arguments AwaitResponse {R} n.
Arguments Returned {R} r.

(** How the promise of request [n] was settled, if it was. *)
Definition settlement (n : Z) (st : Client) : option Settlement :=
  snd <$> List.find (fun po => bool_decide (po.1 = n)) (settlements st).

Section WithOperation.

Context {R : Type}.
Variable op : Operation R.

(** From the second [isConnected()] test on. *)
Definition afterConnect (st : Client) : Task R * Client :=
  if isConnected st
  then
    match sendRequest (opMethod op) (opParams op) st with
    | (Some n, st') => (AwaitResponse n, st')
    | (None, st') => (Returned (opFallback op), st')
    end
  else (Returned (opFallback op), st).

(** The call, up to its first suspension. *)
Definition call (st : Client) : Task R * Client :=
  if isConnected st
  then afterConnect st
  else (AwaitConnect (length (sockets st)), connect st).

(** The continuation of a suspended operation, run when the promise it
    awaits is settled. *)
Definition resume (task : Task R) (st : Client) : Task R * Client :=
  match task with
  | AwaitConnect k =>
      match connectResult k st with
      | Some _ => afterConnect st
      | None => (task, st)
      end
  | AwaitResponse n =>
      match settlement n st with
      | Some (Resolved value) =>
          (Returned (default (opFallback op) (opResult op value)), st)
      | Some (RejectedWith _) => (Returned (opFallback op), st)
      | None => (task, st)
      end
  | Returned _ => (task, st)
  end.

Variable JSON_parse : string -> option JSValue.

(** One callback of the event loop, then the continuation if it is due. *)
Definition advance (ts : Task R * Client) (ev : Event) : Task R * Client :=
  resume ts.1 (step JSON_parse ts.2 ev).

Definition runCall (st : Client) (evs : list Event) : Task R * Client :=
  fold_left advance evs (call st).

End WithOperation.

(** Sockets named by [connects] and [handshakes] exist. *)
Record HandshakeInv (st : Client) : Prop := mkHandshakeInv {
  inv_connects : ∀ k b, (k, b) ∈ connects st → (k < length (sockets st))%nat;
  inv_handshakes : ∀ p k, handshakes st !! p = Some k → (k < length (sockets st))%nat
}.

End Operations.

(** * What the tool handlers do around the executor and the client *)

Module Tools.

(** [s.replace(/\\/g, '\\\\').replace(/"/g, '\\"')]: the text put between
    quotation marks in a generated script ([safeDir], [safePath],
    [safeScene], [safeOutput]). *)
Definition escapeForScript (s : string) : string :=
  Text.replaceAll Text.quotation (String Text.backslash (String Text.quotation EmptyString))
    (Text.replaceAll Text.backslash (String Text.backslash (String Text.backslash EmptyString)) s).

(** Reading the body of a quoted literal back, as far as these two
    escapes go: backslash-backslash is a backslash, backslash-quote a
    quotation mark; [None] when a bare quotation mark, which would end
    the literal, or another use of the backslash is met. *)
Fixpoint unescape (s : string) : option string :=
  match s with
  | EmptyString => Some EmptyString
  | String a rest =>
      if Ascii.eqb a Text.backslash
      then match rest with
           | EmptyString => None
           | String b rest' =>
               if Ascii.eqb b Text.backslash || Ascii.eqb b Text.quotation
               then String b <$> unescape rest'
               else None
           end
      else if Ascii.eqb a Text.quotation
      then None
      else String a <$> unescape rest
  end.

(** The arguments [godot_execute] passes on:
    [params.args.split(' ').filter(Boolean)]. *)
Definition splitArgs (args : string) : list string := Text.tokens Text.space args.

(** The [valid] flag of [godot_validate_script]. *)
Definition scriptValid (d : LSP.Diagnostics) : bool :=
  bool_decide (length (LSP.errors d) = 0%nat).

End Tools.

(** * Sample worlds

    Concrete operating-system behaviours and wire data, on which the
    statements below are run. *)

Module Samples.

Import Executor.

Definition godot : GodotExecutor := mkExecutor "/usr/bin/godot" "/home/dev/game".

(** A child that prints, is slower than the timer, and is reaped after
    the signal. *)
Definition slowChild (_ : SpawnCall) : SpawnOutcome :=
  Spawned [StdoutData "load"; StderrData "warn"; StdoutData "ing"; TimerFired; Close None].

(** A child that prints and exits with code 3. *)
Definition failingChild (_ : SpawnCall) : SpawnOutcome :=
  Spawned [StdoutData "par"; StderrData "bad "; StdoutData "tial"; StderrData "scene";
           Close (Some 3)].

(** A child that exits with code 0 and wrote nothing to standard error. *)
Definition quietChild (_ : SpawnCall) : SpawnOutcome :=
  Spawned [StdoutData "ok"; Close (Some 0)].

(** A child ended by a signal from outside: [close] with a null code. *)
Definition signalledChild (_ : SpawnCall) : SpawnOutcome :=
  Spawned [StdoutData "half"; StderrData "Killed"; Close None].

(** A child that outlives the signal: it writes before the timer fires,
    goes on writing afterwards, and never ends. *)
Definition stubbornChild (_ : SpawnCall) : SpawnOutcome :=
  Spawned [StdoutData "tick"; TimerFired; StdoutData "tick"; StdoutData "tick"].

(** [spawn] itself throws. *)
Definition brokenSpawn (_ : SpawnCall) : SpawnOutcome :=
  SpawnThrows (ThrownError "spawn ENOMEM").

(** [path.join] on a POSIX platform, for a directory in normal form
    with no trailing slash and a name of one segment, as in the samples. *)
Definition joinPosix (dir name : string) : string := dir +:+ "/" +:+ name.

Definition writeOk (_ _ : string) : option Thrown := None.
Definition unlinkOk (_ : string) : option Thrown := None.
Definition unlinkBusy (_ : string) : option Thrown :=
  Some (ThrownError "EBUSY: resource busy or locked, unlink").

(** Lines of the wire.  The quotation mark is character 34. *)
Definition quote : string := String "034"%char EmptyString.

Definition quoted (s : string) : string := quote +:+ s +:+ quote.

(** A response to request 1 and one to request 2, in the shape
    [handleMessage] reads, and a line that is not JSON. *)
Definition response1 : string :=
  "{" +:+ quoted "jsonrpc" +:+ ":" +:+ quoted "2.0" +:+ "," +:+ quoted "id" +:+ ":1,"
      +:+ quoted "params" +:+ ":{}}".

Definition response2 : string :=
  "{" +:+ quoted "jsonrpc" +:+ ":" +:+ quoted "2.0" +:+ "," +:+ quoted "id" +:+ ":2,"
      +:+ quoted "params" +:+ ":[]}".

Definition garbage : string := "Content-Length: 52".

Definition newline : string := String "010"%char EmptyString.

(** [JSON.parse] on the lines above; a peer of the samples sends no
    other line. *)
Definition parseSample (s : string) : option LSP.JSValue :=
  if decide (s = response1)
  then Some (LSP.JObj [("jsonrpc"%string, LSP.JStr "2.0"); ("id"%string, LSP.JNum 1);
                       ("params"%string, LSP.JObj [])])
  else if decide (s = response2)
  then Some (LSP.JObj [("jsonrpc"%string, LSP.JStr "2.0"); ("id"%string, LSP.JNum 2);
                       ("params"%string, LSP.JArr [])])
  else None.

End Samples.

(** Further sample worlds. *)

Module MoreSamples.

Import Executor.

(** A working directory that does not exist: [spawn] reports it with
    an [error] event, and [close] follows. *)
Definition missingCwd (_ : SpawnCall) : SpawnOutcome :=
  Spawned [ErrorEvent "spawn /bin/sh ENOENT"; Close (Some (-2))].

(** The same child as [Samples.slowChild], observed up to the timer. *)
Definition slowChildCut (_ : SpawnCall) : SpawnOutcome :=
  Spawned [StdoutData "load"; StderrData "warn"; StdoutData "ing"; TimerFired].

Definition diskFull (_ _ : string) : option Thrown :=
  Some (ThrownError "ENOSPC: no space left on device, write").

(** A process with no variable set, on Linux. *)
Definition emptyEnvironment : Config.Process :=
  Config.mkProcess "linux" ∅ "/home/dev/game" "/home/dev".

(** A response to request 2 that carries hover text, and [JSON.parse] on
    it and on the lines of [Samples]. *)
Definition hoverResponse : string :=
  "{" +:+ Samples.quoted "jsonrpc" +:+ ":" +:+ Samples.quoted "2.0" +:+ ","
      +:+ Samples.quoted "id" +:+ ":2," +:+ Samples.quoted "params" +:+ ":{"
      +:+ Samples.quoted "contents" +:+ ":" +:+ Samples.quoted "func move()" +:+ "}}".

Definition parseHover (s : string) : option LSP.JSValue :=
  if decide (s = hoverResponse)
  then Some (LSP.JObj [("jsonrpc"%string, LSP.JStr "2.0"); ("id"%string, LSP.JNum 2);
                       ("params"%string,
                        LSP.JObj [("contents"%string, LSP.JStr "func move()")])])
  else Samples.parseSample s.

(** [parseInt] on the port numbers of the samples. *)
Definition parseDigits (s : string) : option Z :=
  if decide (s = "6005"%string) then Some 6005 else None.

End MoreSamples.

(** * Properties of the process executor *)

Module ExecutorFacts.

Import Executor.

Lemma append_nil (t : string) : EmptyString +:+ t = t.
Proof. reflexivity. Qed.

Lemma append_cons a (s t : string) : String a s +:+ t = String a (s +:+ t).
Proof. reflexivity. Qed.

Lemma append_empty_r (s : string) : s +:+ EmptyString = s.
Proof. induction s as [|a s IH]; [reflexivity | by rewrite append_cons, IH]. Qed.

Lemma append_assoc (a b c : string) : (a +:+ b) +:+ c = a +:+ (b +:+ c).
Proof. induction a as [|x a IH]; [reflexivity | by rewrite !append_cons, IH]. Qed.

(** While only data arrives, the accumulators grow and nothing else moves. *)
Lemma data_only_from capture evs c :
  forallb is_data evs = true ->
  fold_left (handle capture) evs c =
    mkCall (outputAcc c +:+ captured capture (stdout_text evs))
           (errorOutput c +:+ captured capture (stderr_text evs))
           (timerArmed c) (kills c) (settled c).
Proof.
  revert c. induction evs as [|ev evs IH]; intros c Hdata.
  - destruct c, capture; simpl; by rewrite !append_empty_r.
  - simpl in Hdata. apply andb_prop in Hdata as [Hev Hevs].
    simpl fold_left. rewrite (IH _ Hevs).
    destruct ev; try discriminate; destruct capture; simpl;
      by rewrite ?append_assoc, ?append_nil.
Qed.

Lemma data_only capture evs :
  forallb is_data evs = true ->
  run capture evs =
    mkCall (captured capture (stdout_text evs)) (captured capture (stderr_text evs))
           true [] None.
Proof. intros H. unfold run. by rewrite (data_only_from _ _ _ H). Qed.

(** Once the promise is settled and the timer is gone, no event changes
    the result or sends a signal. *)
Lemma after_settlement capture evs c r :
  settled c = Some r -> timerArmed c = false ->
  let c' := fold_left (handle capture) evs c in
  settled c' = Some r /\ timerArmed c' = false /\ kills c' = kills c.
Proof.
  revert c. induction evs as [|ev evs IH]; intros c Hs Ht; simpl; [done|].
  assert (settled (handle capture c ev) = Some r
          /\ timerArmed (handle capture c ev) = false
          /\ kills (handle capture c ev) = kills c) as (Hs' & Ht' & Hk').
  { destruct ev; simpl; try (destruct capture; done);
      try (rewrite Ht; done); unfold resolve; simpl; by rewrite Hs. }
  destruct (IH _ Hs' Ht') as (? & ? & ?). by rewrite <- Hk'.
Qed.

Lemma run_app capture evs1 evs2 :
  run capture (evs1 ++ evs2) = fold_left (handle capture) evs2 (run capture evs1).
Proof. unfold run. apply fold_left_app. Qed.

(** C1, as the claim states it, fails: the timer fires, the call
    resolves with the timed-out result and the child is sent SIGTERM,
    once.  The child does not end: it goes on writing, no [close] event
    comes, and the call sends it nothing more. *)
Lemma timeout_leaves_child_running :
  let args := ["--headless"; "--script"; "loop.gd"]%string in
  let evs := [StdoutData "tick"; TimerFired; StdoutData "tick"; StdoutData "tick"] in
  Samples.stubbornChild (mkSpawn "/usr/bin/godot" args "/home/dev/game") = Spawned evs
  /\ execute Samples.stubbornChild Samples.godot args noOptions
     = (Fulfilled (mkResult false "tick" (Some "Process timed out"%string) (Some (-1))),
        [SIGTERM])
  /\ closed evs = false
  /\ stdout_text (drop 2 evs) = "ticktick"%string.
Proof. repeat split. Qed.

(** C1, amended: when the timer is the first thing to fire after any
    output, the call resolves with [success = false], the output
    captured so far, the error [Process timed out] and exit code -1,
    and the child is sent one SIGTERM.  The call does not wait for the
    child to end and sends no further signal: result and signals are
    the same whatever the child does afterwards. *)
Theorem execute_timeout spawn self args options pre post :
  spawn (mkSpawn (godotPath self) args
                 (default (projectPath self) (workingDirectory options)))
    = Spawned (pre ++ TimerFired :: post) ->
  forallb is_data pre = true ->
  execute spawn self args options =
    (Fulfilled (mkResult false
                  (captured (default true (captureOutput options)) (stdout_text pre))
                  (Some "Process timed out"%string)
                  (Some (-1))),
     [SIGTERM]).
Proof.
  intros Hspawn Hdata. unfold execute. rewrite Hspawn.
  set (capture := default true (captureOutput options)).
  rewrite run_app, (data_only capture pre Hdata).
  change (fold_left (handle capture) (TimerFired :: post) ?c)
    with (fold_left (handle capture) post (handle capture c TimerFired)).
  set (c := handle capture _ TimerFired).
  destruct (after_settlement capture post c
              (timedOut (captured capture (stdout_text pre))))
    as (Hs & _ & Hk); [done | done |].
  simpl in Hs, Hk. by rewrite Hs, Hk.
Qed.

Lemma execute_timeout_witness :
  execute Samples.slowChild Samples.godot ["--version"%string] noOptions =
    (Fulfilled (mkResult false "loading" (Some "Process timed out"%string) (Some (-1))),
     [SIGTERM]).
Proof.
  apply (execute_timeout Samples.slowChild Samples.godot ["--version"%string] noOptions
           [StdoutData "load"; StderrData "warn"; StdoutData "ing"] [Close None]);
    reflexivity.
Defined.

(** A [close] event that comes first cancels the timer and resolves the
    call from the code and the accumulators. *)
Lemma execute_close spawn self args options pre post code :
  spawn (mkSpawn (godotPath self) args
                 (default (projectPath self) (workingDirectory options)))
    = Spawned (pre ++ Close code :: post) ->
  forallb is_data pre = true ->
  let capture := default true (captureOutput options) in
  execute spawn self args options =
    (Fulfilled (mkResult (bool_decide (code = Some 0))
                  (captured capture (stdout_text pre))
                  (or_undefined (captured capture (stderr_text pre)))
                  code),
     [])
  /\ timerArmed (run capture (pre ++ [Close code])) = false.
Proof.
  intros Hspawn Hdata capture. unfold execute. rewrite Hspawn. fold capture.
  rewrite !run_app, (data_only capture pre Hdata).
  change (fold_left (handle capture) (Close code :: post) ?c)
    with (fold_left (handle capture) post (handle capture c (Close code))).
  set (c := handle capture _ (Close code)).
  destruct (after_settlement capture post c
              (mkResult (bool_decide (code = Some 0))
                 (captured capture (stdout_text pre))
                 (or_undefined (captured capture (stderr_text pre)))
                 code))
    as (Hs & _ & Hk); [done | done |].
  simpl in Hs, Hk. by rewrite Hs, Hk.
Qed.

(** C2: when the child closes with exit code [n] before the timer fires,
    the timer is cancelled (it is no longer scheduled, and no signal is
    ever sent), [success] is true exactly when [n] is 0, [exitCode] is
    [n], and [error] is the standard-error text when there is some and
    absent otherwise. *)
Theorem execute_exit spawn self args options pre post (n : Z) :
  spawn (mkSpawn (godotPath self) args
                 (default (projectPath self) (workingDirectory options)))
    = Spawned (pre ++ Close (Some n) :: post) ->
  forallb is_data pre = true ->
  let capture := default true (captureOutput options) in
  let err := captured capture (stderr_text pre) in
  execute spawn self args options =
    (Fulfilled (mkResult (bool_decide (n = 0))
                  (captured capture (stdout_text pre))
                  (if decide (err = EmptyString) then None else Some err)
                  (Some n)),
     [])
  /\ timerArmed (run capture (pre ++ [Close (Some n)])) = false.
Proof.
  intros Hspawn Hdata capture err.
  destruct (execute_close spawn self args options pre post (Some n) Hspawn Hdata)
    as [Hexec Htimer].
  split; [|exact Htimer]. rewrite Hexec. fold capture err.
  replace (bool_decide (Some n = Some 0)) with (bool_decide (n = 0))
    by (apply bool_decide_ext; split; congruence).
  by destruct err.
Qed.

Lemma execute_exit_witness :
  execute Samples.failingChild Samples.godot ["--version"%string] noOptions =
    (Fulfilled (mkResult false "partial" (Some "bad scene"%string) (Some 3)), [])
  /\ execute Samples.quietChild Samples.godot ["--version"%string] noOptions =
    (Fulfilled (mkResult true "ok" None (Some 0)), []).
Proof.
  split.
  - apply (execute_exit Samples.failingChild Samples.godot ["--version"%string] noOptions
             [StdoutData "par"; StderrData "bad "; StdoutData "tial"; StderrData "scene"]
             [] 3); reflexivity.
  - apply (execute_exit Samples.quietChild Samples.godot ["--version"%string] noOptions
             [StdoutData "ok"] [] 0); reflexivity.
Defined.

(** C10: a [close] event with a null code resolves the call with
    [success = false] and no [exitCode], with the captured output and
    the standard-error text, if any, as [error]. *)
Theorem execute_null_code spawn self args options pre post :
  spawn (mkSpawn (godotPath self) args
                 (default (projectPath self) (workingDirectory options)))
    = Spawned (pre ++ Close None :: post) ->
  forallb is_data pre = true ->
  let capture := default true (captureOutput options) in
  let err := captured capture (stderr_text pre) in
  execute spawn self args options =
    (Fulfilled (mkResult false
                  (captured capture (stdout_text pre))
                  (if decide (err = EmptyString) then None else Some err)
                  None),
     []).
Proof.
  intros Hspawn Hdata capture err.
  destruct (execute_close spawn self args options pre post None Hspawn Hdata)
    as [Hexec _].
  rewrite Hexec. fold capture err. by destruct err.
Qed.

Lemma execute_null_code_witness :
  execute Samples.signalledChild Samples.godot ["--version"%string] noOptions =
    (Fulfilled (mkResult false "half" (Some "Killed"%string) None), []).
Proof.
  apply (execute_null_code Samples.signalledChild Samples.godot ["--version"%string]
           noOptions [StdoutData "half"; StderrData "Killed"] []); reflexivity.
Defined.

(** *** Inline scripts *)

(** The three ways out of the [try] block once the file is written. *)
Lemma runInlineScript_written spawn writeFile unlink join tmpdir uuid self code fs :
  let tempFile := tempFileName join tmpdir uuid in
  writeFile tempFile code = None ->
  runInlineScript spawn writeFile unlink join tmpdir uuid self code fs =
    match fst (runScript spawn self tempFile) with
    | Forever => (Forever, {[ tempFile ]} ∪ fs)
    | Rejected e => (Fulfilled (caught e), {[ tempFile ]} ∪ fs)
    | Fulfilled result =>
        match unlink tempFile with
        | Some e => (Fulfilled (caught e), {[ tempFile ]} ∪ fs)
        | None => (Fulfilled result, ({[ tempFile ]} ∪ fs) ∖ {[ tempFile ]})
        end
    end.
Proof. intros tempFile Hw. unfold runInlineScript. fold tempFile. by rewrite Hw. Qed.

(** C5 at its failing input: the file is written, the run completes
    with the result [success = true], output [ok] and exit code 0, and
    [unlink] then throws.  The [catch] clause of the same [try] answers:
    the call returns a failure that carries the deletion error, and the
    result of the run, with its output, is lost. *)
Theorem cleanup_failure_masks_result :
  let tempFile := tempFileName Samples.joinPosix "/tmp" "1b4e28ba" in
  let result := mkResult true "ok" None (Some 0) in
  let returned := fst (runInlineScript Samples.quietChild Samples.writeOk Samples.unlinkBusy
                         Samples.joinPosix "/tmp" "1b4e28ba" Samples.godot "print(1)" ∅) in
  Samples.writeOk tempFile "print(1)" = None
  /\ fst (runScript Samples.quietChild Samples.godot tempFile) = Fulfilled result
  /\ Samples.unlinkBusy tempFile
     = Some (ThrownError "EBUSY: resource busy or locked, unlink")
  /\ returned
     = Fulfilled (mkResult false EmptyString
                    (Some "EBUSY: resource busy or locked, unlink"%string) (Some (-1)))
  /\ returned <> Fulfilled result.
Proof. repeat split; discriminate. Qed.

(** Where the run yields a result and [unlink] works, the scratch file
    is gone when the call returns. *)
Lemma scratch_file_removed spawn writeFile unlink join tmpdir uuid self code fs result :
  let tempFile := tempFileName join tmpdir uuid in
  writeFile tempFile code = None ->
  fst (runScript spawn self tempFile) = Fulfilled result ->
  unlink tempFile = None ->
  let after := runInlineScript spawn writeFile unlink join tmpdir uuid self code fs in
  after.1 = Fulfilled result /\ tempFile ∉ after.2.
Proof.
  intros tempFile Hw Hrun Hunlink after. unfold after.
  rewrite (runInlineScript_written spawn writeFile unlink join tmpdir uuid self code fs Hw).
  fold tempFile. rewrite Hrun, Hunlink. split; [done|]. simpl.
  intros [_ Hout]%elem_of_difference. apply Hout. by apply elem_of_singleton.
Qed.

(** When the awaited run rejects, control goes from the [await] to the
    [catch] clause: [unlink] is not called and the file stays. *)
Lemma run_throws_skips_unlink spawn writeFile unlink join tmpdir uuid self code fs e :
  let tempFile := tempFileName join tmpdir uuid in
  writeFile tempFile code = None ->
  fst (runScript spawn self tempFile) = Rejected e ->
  let after := runInlineScript spawn writeFile unlink join tmpdir uuid self code fs in
  after.1 = Fulfilled (caught e) /\ tempFile ∈ after.2.
Proof.
  intros tempFile Hw Hrun after. unfold after.
  rewrite (runInlineScript_written spawn writeFile unlink join tmpdir uuid self code fs Hw).
  fold tempFile. rewrite Hrun. split; [done|]. simpl.
  by apply elem_of_union_l, elem_of_singleton.
Qed.

(** C7 at its failing input: the file is written, [spawn] throws inside
    [execute], the [catch] clause answers without calling [unlink], and
    the scratch file exists when the call returns, although deleting it
    would have worked. *)
Theorem scratch_file_left_when_run_throws :
  let tempFile := tempFileName Samples.joinPosix "/tmp" "1b4e28ba" in
  let after := runInlineScript Samples.brokenSpawn Samples.writeOk Samples.unlinkOk
                 Samples.joinPosix "/tmp" "1b4e28ba" Samples.godot "print(1)" ∅ in
  Samples.writeOk tempFile "print(1)" = None
  /\ fst (runScript Samples.brokenSpawn Samples.godot tempFile)
     = Rejected (ThrownError "spawn ENOMEM")
  /\ Samples.unlinkOk tempFile = None
  /\ after.1 = Fulfilled (mkResult false EmptyString (Some "spawn ENOMEM"%string) (Some (-1)))
  /\ tempFile ∈ after.2.
Proof.
  intros tempFile after. split; [reflexivity|]. split; [reflexivity|].
  split; [reflexivity|]. split; [reflexivity|].
  change after.2 with ({[ tempFile ]} ∪ (∅ : gset string)).
  by apply elem_of_union_l, elem_of_singleton.
Qed.

End ExecutorFacts.

(** * Properties of the LSP client *)

Module LSPFacts.

Import LSP Invariants.

(** *** Diagnostics *)

Lemma collect_all diags acc :
  fold_left collect diags acc =
    mkDiagnostics
      (errors acc ++ (entry "error" <$> filter (λ d, severity d = 1) diags))
      (warnings acc ++ (entry "warning" <$> filter (λ d, severity d = 2) diags)).
Proof.
  revert acc. induction diags as [|d diags IH]; intros acc.
  - destruct acc. simpl. by rewrite !app_nil_r.
  - simpl fold_left. rewrite IH. unfold collect.
    destruct (Z.eqb_spec (severity d) 1) as [H1|H1].
    + rewrite filter_cons_True by done.
      rewrite (filter_cons_False (λ d, severity d = 2)) by lia.
      simpl. by rewrite <- app_assoc.
    + rewrite filter_cons_False by done.
      destruct (Z.eqb_spec (severity d) 2) as [H2|H2].
      * rewrite filter_cons_True by done. simpl. by rewrite <- app_assoc.
      * by rewrite filter_cons_False by done.
Qed.

Lemma collect_skips diags acc :
  fold_left collect (filter (λ d, severity d ≠ 3 ∧ severity d ≠ 4) diags) acc =
  fold_left collect diags acc.
Proof.
  revert acc. induction diags as [|d diags IH]; intros acc; [done|].
  destruct (decide (severity d ≠ 3 ∧ severity d ≠ 4)) as [Hkeep|Hdrop].
  - rewrite filter_cons_True by done. simpl. apply IH.
  - rewrite filter_cons_False by done. simpl. rewrite IH. f_equal.
    unfold collect.
    destruct (Z.eqb_spec (severity d) 1); [lia|].
    destruct (Z.eqb_spec (severity d) 2); [lia|]. done.
Qed.

(** C8: on records whose start line and column are safe integers,
    [errors] is the list of the severity-1 records and [warnings] that
    of the severity-2 records, each in input order, with line and
    column one more than in the input and the message unchanged; the
    records of severity 3 or 4 add nothing to either list. *)
Theorem parseDiagnostics_spec (diags : list LSPDiagnostic) :
  Forall (λ d, isSafeInteger (line (rangeStart (range d)))
               ∧ isSafeInteger (column (rangeStart (range d)))) diags ->
  let translate sev d :=
    mkIssue (line (rangeStart (range d)) + 1) (column (rangeStart (range d)) + 1)
            (message d) sev in
  errors (parseDiagnostics (Some diags))
    = translate "error"%string <$> filter (λ d, severity d = 1) diags
  /\ warnings (parseDiagnostics (Some diags))
    = translate "warning"%string <$> filter (λ d, severity d = 2) diags
  /\ parseDiagnostics (Some (filter (λ d, severity d ≠ 3 ∧ severity d ≠ 4) diags))
    = parseDiagnostics (Some diags).
Proof.
  intros _ translate. unfold parseDiagnostics. simpl default.
  split; [|split].
  - by rewrite collect_all.
  - by rewrite collect_all.
  - apply collect_skips.
Qed.

(** An error on line 4, column 9 and a hint: one error, on line 5,
    column 10, and no warning. *)
Lemma parseDiagnostics_spec_witness :
  let diags := [mkDiagnostic (mkRange (mkPosition 4 9) (mkPosition 4 12)) "x" 1;
                mkDiagnostic (mkRange (mkPosition 7 0) (mkPosition 7 1)) "hint" 4] in
  errors (parseDiagnostics (Some diags)) = [mkIssue 5 10 "x" "error"]
  /\ warnings (parseDiagnostics (Some diags)) = [].
Proof.
  intros diags.
  destruct (parseDiagnostics_spec diags) as (Herrors & Hwarnings & _).
  - repeat constructor; unfold isSafeInteger; simpl; lia.
  - split; [exact Herrors | exact Hwarnings].
Defined.

(** The example of the specification. *)
Example parseDiagnostics_example :
  parseDiagnostics
    (Some [mkDiagnostic (mkRange (mkPosition 4 9) (mkPosition 4 12)) "x" 1;
           mkDiagnostic (mkRange (mkPosition 7 0) (mkPosition 7 1)) "hint" 4])
  = mkDiagnostics [mkIssue 5 10 "x" "error"] [].
Proof. reflexivity. Qed.

(** *** The pending-request map *)

Ltac open_state :=
  unfold settle, resolveConnect, sendNotification, write, destroy,
    set_client, set_messageId, set_pendingRequests, set_sockets, set_timers,
    set_settlements, set_handshakes, set_connects in *.

(** [settle] adds one call to the log and leaves the object's fields alone. *)
Lemma settle_fields p o st :
  client (settle p o st) = client st
  /\ messageId (settle p o st) = messageId st
  /\ pendingRequests (settle p o st) = pendingRequests st
  /\ timers (settle p o st) = timers st
  /\ settlements (settle p o st) = settlements st ++ [(p, o)].
Proof. open_state. repeat case_match; simpl; done. Qed.

Lemma settledTimes_settle n p o st :
  settledTimes n (settle p o st)
  = (settledTimes n st + (if bool_decide (p = n) then 1 else 0))%nat.
Proof.
  unfold settledTimes. destruct (settle_fields p o st) as (_ & _ & _ & _ & ->).
  rewrite filter_app, length_app. f_equal.
  case_bool_decide.
  - by rewrite filter_cons_True.
  - by rewrite filter_cons_False.
Qed.

Lemma Shrink_refl st : Shrink st st.
Proof. by split. Qed.

Lemma Shrink_trans st1 st2 st3 : Shrink st1 st2 → Shrink st2 st3 → Shrink st1 st3.
Proof. intros [Hm1 H1] [Hm2 H2]. split; [congruence | auto]. Qed.

Lemma Shrink_Advance st st' : Shrink st st' → Advance st st'.
Proof. intros [Hm H]. split; [lia | auto | lia]. Qed.

Lemma CoreInv_same st st' : same_core st st' → CoreInv st → CoreInv st'.
Proof.
  intros (Hm & Hp & Hs) [Hn He Hc]. split.
  - by rewrite Hm.
  - intros n p. rewrite Hm, Hp. apply He.
  - intros n. unfold settledTimes. rewrite Hm, Hp, Hs. apply Hc.
Qed.

Lemma Shrink_same st st' : same_core st st' → Shrink st st'.
Proof. intros (Hm & Hp & _). split; [done|]. by rewrite Hp. Qed.

Lemma CoreInv_fresh : CoreInv fresh.
Proof.
  split.
  - done.
  - intros n p. simpl. by rewrite lookup_empty.
  - intros n. unfold settledTimes. simpl. case_bool_decide; [lia | done].
Qed.

Lemma retire_fields n o st :
  client (retire n o st) = client st
  /\ messageId (retire n o st) = messageId st
  /\ pendingRequests (retire n o st) = delete n (pendingRequests st)
  /\ timers (retire n o st) = timers st
  /\ settlements (retire n o st) = settlements st ++ [(n, o)].
Proof. unfold retire. open_state. repeat case_match; simpl; done. Qed.

Lemma CoreInv_retire n o st :
  CoreInv st → is_Some (pendingRequests st !! n) → CoreInv (retire n o st).
Proof.
  intros [Hnonneg Hentry Hsettled] [p Hp].
  destruct (retire_fields n o st) as (_ & Hm & Hpend & _ & _).
  split.
  - by rewrite Hm.
  - intros k q. rewrite Hm, Hpend. intros Hk.
    apply lookup_delete_Some in Hk as [_ Hk]. by apply Hentry.
  - intros k. unfold retire at 1. rewrite settledTimes_settle.
    rewrite Hm, Hpend.
    replace (settledTimes k (set_pendingRequests (delete n (pendingRequests st)) st))
      with (settledTimes k st) by reflexivity.
    rewrite Hsettled.
    destruct (decide (n = k)) as [->|Hne].
    + destruct (Hentry k p Hp) as (? & _). rewrite lookup_delete_eq, Hp.
      repeat case_bool_decide; naive_solver.
    + rewrite lookup_delete_ne by done.
      repeat case_bool_decide; naive_solver.
Qed.

Lemma Shrink_retire n o st : Shrink st (retire n o st).
Proof.
  destruct (retire_fields n o st) as (_ & Hm & Hpend & _ & _).
  split; [done|].
  intros k q. rewrite Hpend. intros Hk.
  by apply lookup_delete_Some in Hk as [_ Hk].
Qed.

(** Issuing a request. *)
Lemma sendRequest_connected meth pars st s :
  client st = Some s →
  let n := messageId st + 1 in
  let st' := (sendRequest meth pars st).2 in
  (sendRequest meth pars st).1 = Some n
  /\ client st' = Some s
  /\ messageId st' = n
  /\ pendingRequests st' = <[ n := n ]> (pendingRequests st)
  /\ timers st' = {[ n ]} ∪ timers st
  /\ settlements st' = settlements st.
Proof.
  intros Hc. unfold sendRequest. rewrite Hc. open_state. simpl.
  repeat case_match; simpl; done.
Qed.

Lemma sendRequest_disconnected meth pars st :
  client st = None → sendRequest meth pars st = (None, st).
Proof. intros Hc. unfold sendRequest. by rewrite Hc. Qed.

Lemma CoreInv_issue st st' :
  CoreInv st →
  messageId st' = messageId st + 1 →
  pendingRequests st' = <[ messageId st + 1 := messageId st + 1 ]> (pendingRequests st) →
  settlements st' = settlements st →
  CoreInv st' ∧ Advance st st'.
Proof.
  intros [Hnonneg Hentry Hsettled] Hm Hp Hs.
  assert (pendingRequests st !! (messageId st + 1) = None) as Hnew.
  { destruct (pendingRequests st !! (messageId st + 1)) as [p|] eqn:E; [|done].
    apply Hentry in E. lia. }
  split; split.
  - lia.
  - intros n p. rewrite Hm, Hp. intros [[<- <-]|[Hne Hn]]%lookup_insert_Some.
    + lia.
    + apply Hentry in Hn. lia.
  - intros n. unfold settledTimes. rewrite Hs, Hm, Hp.
    fold (settledTimes n st). rewrite Hsettled.
    destruct (decide (messageId st + 1 = n)) as [<-|Hne].
    + rewrite lookup_insert_eq. repeat case_bool_decide; naive_solver lia.
    + rewrite lookup_insert_ne by done. repeat case_bool_decide; naive_solver lia.
  - lia.
  - intros n p. rewrite Hp. intros [[<- <-]|[Hne Hn]]%lookup_insert_Some.
    + right. lia.
    + by left.
  - intros n. rewrite Hm, Hp. intros Hn.
    assert (n = messageId st + 1) as -> by lia. rewrite lookup_insert_eq. by eexists.
Qed.

(** *** Correlation ids *)

(** Replacing a socket by one with the same request ids, or, for the
    last socket, with one id more. *)
Lemma requestIds_insert_same (l : list Socket) s sk sk' :
  l !! s = Some sk → requestIds sk' = requestIds sk →
  <[ s := sk' ]> l ≫= requestIds = l ≫= requestIds.
Proof.
  intros Hs Hids. rewrite insert_take_drop by (by eapply lookup_lt_Some).
  rewrite <- (take_drop_middle l s sk Hs) at 3.
  by rewrite !bind_app, !bind_cons, Hids.
Qed.

Lemma requestIds_insert_last (l : list Socket) s sk sk' n :
  l !! s = Some sk → S s = length l → requestIds sk' = requestIds sk ++ [n] →
  <[ s := sk' ]> l ≫= requestIds = (l ≫= requestIds) ++ [n].
Proof.
  intros Hs Hlast Hids. rewrite insert_take_drop by (by eapply lookup_lt_Some).
  rewrite <- (take_drop_middle l s sk Hs) at 3.
  rewrite (drop_ge l (S s)) by lia.
  rewrite !bind_app, !bind_cons, Hids. simpl.
  by rewrite !app_nil_r, app_assoc.
Qed.

Lemma same_wire_refl st : same_wire st st.
Proof. done. Qed.

Lemma same_wire_trans st1 st2 st3 :
  same_wire st1 st2 → same_wire st2 st3 → same_wire st1 st3.
Proof. intros (?&?&?&?) (?&?&?&?). repeat split; congruence. Qed.

Lemma SockInv_same st st' : same_wire st st' → SockInv st → SockInv st'.
Proof.
  intros (Hc & Hm & Hl & Hi) [Hclient Hids]. split.
  - intros s. rewrite Hc, Hl. apply Hclient.
  - by rewrite Hi, Hm.
Qed.

Lemma same_wire_notify meth pars st : same_wire st (sendNotification meth pars st).
Proof.
  unfold sendNotification. destruct (client st) as [s|]; [|done].
  unfold write. destruct (sockets st !! s) as [sk|] eqn:Hs; [|done].
  repeat split; simpl.
  - by rewrite length_insert.
  - apply (requestIds_insert_same _ s sk); [done|].
    unfold requestIds. simpl. by rewrite omap_app, app_nil_r.
Qed.

Lemma same_wire_settle p o st : same_wire st (settle p o st).
Proof.
  unfold settle. set (st1 := set_settlements _ st).
  assert (same_wire st st1) as H1 by done.
  case_bool_decide; [|done].
  destruct (handshakes st !! p) as [k|]; [|done].
  destruct o; [|done].
  eapply same_wire_trans; [exact H1|].
  eapply same_wire_trans; [apply same_wire_notify|]. done.
Qed.

Lemma same_wire_destroy s st : same_wire st (destroy s st).
Proof.
  unfold destroy. destruct (sockets st !! s) as [sk|] eqn:Hs; [|done].
  repeat split; simpl.
  - by rewrite length_insert.
  - by apply (requestIds_insert_same _ s sk).
Qed.

Lemma SockInv_issue meth pars st s :
  0 ≤ messageId st → SockInv st → client st = Some s →
  SockInv (sendRequest meth pars st).2.
Proof.
  intros Hnonneg [Hclient Hids] Hc.
  unfold sendRequest. rewrite Hc. simpl.
  unfold write. simpl.
  destruct (sockets st !! s) as [sk|] eqn:Hs.
  - split; simpl.
    + intros s' Hs'. rewrite length_insert. apply Hclient. congruence.
    + rewrite (requestIds_insert_last _ s sk _ (messageId st + 1)); try done.
      * rewrite Hids, (seqZ_app 1 (messageId st) 1) by lia.
        f_equal. change (seqZ (1 + messageId st) 1) with [0 + (1 + messageId st)].
        f_equal. lia.
      * by apply Hclient.
      * unfold requestIds. simpl. by rewrite omap_app.
  - apply Hclient in Hc. apply lookup_ge_None in Hs. lia.
Qed.

Section Runs.

Variable JSON_parse : string -> option JSValue.

Local Abbreviation handleMessages := (handleMessages JSON_parse).
Local Abbreviation handleMessage := (handleMessage JSON_parse).
Local Abbreviation step := (step JSON_parse).
Local Abbreviation run := (run JSON_parse).
Local Abbreviation removals := (removals JSON_parse).

(** One turn of the loop of [handleMessage]: it stops, goes on with the
    same state, or retires the entry its line names and goes on. *)
Lemma handleMessages_cons msg rest st :
  CoreInv st →
  handleMessages (msg :: rest) st = st
  ∨ handleMessages (msg :: rest) st = handleMessages rest st
  ∨ ∃ parsed n value,
      JSON_parse msg = Some parsed
      ∧ property "id" parsed = Some (Some (JNum n))
      ∧ property "params" parsed = Some value
      ∧ is_Some (pendingRequests st !! n)
      ∧ handleMessages (msg :: rest) st
        = handleMessages rest (retire n (Resolved value) st).
Proof.
  intros Hinv. simpl.
  destruct (JSON_parse msg) as [parsed|]; [|by left].
  destruct (property "id" parsed) as [idv|] eqn:Hid; [|by left].
  destruct (truthy idv && has idv (pendingRequests st)); [|by right; left].
  destruct idv as [[]|]; simpl; try (by left).
  unfold get. simpl.
  destruct (pendingRequests st !! n) as [p|] eqn:Hp; [|by left].
  destruct (property "params" parsed) as [value|] eqn:Hparams; [|by left].
  right; right. exists parsed, n, value.
  destruct (inv_entry st Hinv n p Hp) as [_ ->].
  rewrite Hp. by repeat split.
Qed.

Lemma handleMessages_inv lines st :
  CoreInv st →
  let st' := handleMessages lines st in
  CoreInv st' ∧ Shrink st st' ∧ timers st' = timers st.
Proof.
  revert st. induction lines as [|msg rest IH]; intros st Hinv.
  - simpl. auto using Shrink_refl.
  - destruct (handleMessages_cons msg rest st Hinv)
      as [-> | [-> | (parsed & n & value & _ & _ & _ & Hn & ->)]].
    + auto using Shrink_refl.
    + by apply IH.
    + destruct (IH (retire n (Resolved value) st)) as (Hinv' & Hshrink & Ht).
      { by apply CoreInv_retire. }
      split; [done|]. split.
      * eapply Shrink_trans; [apply Shrink_retire | done].
      * rewrite Ht. by destruct (retire_fields n (Resolved value) st) as (_ & _ & _ & -> & _).
Qed.

Lemma TimerInv_shrink st st' :
  TimerInv st → Shrink st st' → timers st' = timers st → TimerInv st'.
Proof.
  intros Ht [_ Hs] Heq n [p Hp]. rewrite Heq. apply Ht. exists p. by apply Hs.
Qed.

(** Every callback keeps the invariants. *)
Lemma step_inv st ev :
  CoreInv st → TimerInv st →
  CoreInv (step st ev) ∧ TimerInv (step st ev) ∧ Advance st (step st ev).
Proof.
  intros Hinv Htimers.
  assert (∀ st', same_core st st' → timers st' = timers st →
            CoreInv st' ∧ TimerInv st' ∧ Advance st st') as Hsame.
  { intros st' Hcore Ht. split; [by eapply CoreInv_same|].
    split; [|by apply Shrink_Advance, Shrink_same].
    eapply TimerInv_shrink; eauto using Shrink_same. }
  assert (∀ st0 meth pars s, same_core st st0 → timers st0 = timers st →
            client st0 = Some s →
            let st' := (sendRequest meth pars st0).2 in
            ∀ st'', same_core st' st'' → timers st'' = timers st' →
            CoreInv st'' ∧ TimerInv st'' ∧ Advance st st'') as Hissue.
  { intros st0 meth pars s (Hm0 & Hp0 & Hs0) Ht0 Hc st' st'' (Hm & Hp & Hs) Ht.
    destruct (sendRequest_connected meth pars st0 s Hc)
      as (_ & _ & Hm' & Hp' & Ht' & Hs'). fold st' in Hm', Hp', Ht', Hs'.
    destruct (CoreInv_issue st st'') as [Hinv' Hadv]; try congruence.
    split; [done|]. split; [|done].
    intros n. rewrite Ht, Ht', Hp, Hp', Ht0, Hp0.
    intros [p [[<- <-]|[Hne Hn]]%lookup_insert_Some].
    - rewrite Hm0. set_solver.
    - apply elem_of_union_r, Htimers. by eexists. }
  destruct ev as [| |meth pars|s|s|s data|n]; simpl.
  - apply Hsame; done.
  - unfold disconnect. destruct (client st) as [s|] eqn:Hc.
    + apply Hsame; unfold destroy; open_state; by repeat case_match.
    + apply Hsame; done.
  - destruct (client st) as [s|] eqn:Hc.
    + by apply (Hissue st meth pars s).
    + rewrite sendRequest_disconnected by done. apply Hsame; done.
  - destruct (sockets st !! s) as [sk|] eqn:Hsk; [|by apply Hsame].
    destruct (connecting sk && negb (destroyed sk)); [|by apply Hsame].
    unfold onConnect.
    set (st0 := set_sockets _ st).
    destruct (client st0) as [c|] eqn:Hc.
    + destruct (sendRequest_connected "initialize" initializeParams st0 c Hc) as (Hid & _).
      destruct (sendRequest "initialize" initializeParams st0) as [oid st1] eqn:Hsend.
      simpl in Hid. subst oid.
      apply (Hissue st0 "initialize"%string initializeParams c); try done;
        by rewrite Hsend.
    + rewrite sendRequest_disconnected by done. apply Hsame; done.
  - destruct (sockets st !! s) as [sk|] eqn:Hsk; [|by apply Hsame].
    apply Hsame; unfold destroy; open_state; by repeat case_match.
  - destruct (sockets st !! s) as [sk|] eqn:Hsk; [|by apply Hsame].
    destruct (handleMessages_inv (lines_of data) st Hinv) as (Hinv' & Hshrink & Ht).
    split; [done|]. split; [by eapply TimerInv_shrink | by apply Shrink_Advance].
  - case_bool_decide as Harmed; [|by apply Hsame].
    unfold onTimeout. simpl.
    destruct (pendingRequests st !! n) as [p|] eqn:Hp.
    + set (st0 := set_timers (timers st ∖ {[n]}) st).
      assert (CoreInv st0) as Hinv0 by (by apply (CoreInv_same st)).
      change (settle n _ _) with (retire n (RejectedWith "Request timeout") st0).
      destruct (retire_fields n (RejectedWith "Request timeout") st0)
        as (_ & _ & Hpend & Ht & _).
      split; [apply CoreInv_retire; [done | by exists p]|].
      split.
      * intros k. rewrite Hpend, Ht. simpl.
        intros [q [Hne Hq]%lookup_delete_Some].
        apply elem_of_difference. split; [apply Htimers; by eexists | set_solver].
      * apply Shrink_Advance.
        eapply Shrink_trans; [|apply Shrink_retire]. by apply Shrink_same.
    + split; [by apply (CoreInv_same st)|]. split.
      * intros k [q Hq]. simpl in *.
        apply elem_of_difference. split; [apply Htimers; by eexists|].
        intros ->%elem_of_singleton. congruence.
      * by apply Shrink_Advance, Shrink_same.
Qed.

Lemma run_from_inv evs st :
  CoreInv st → TimerInv st →
  CoreInv (fold_left step evs st) ∧ TimerInv (fold_left step evs st).
Proof.
  revert st. induction evs as [|ev evs IH]; intros st Hinv Ht; [done|].
  simpl. destruct (step_inv st ev Hinv Ht) as (? & ? & _). by apply IH.
Qed.

Lemma run_inv evs : CoreInv (run evs) ∧ TimerInv (run evs).
Proof.
  apply run_from_inv; [apply CoreInv_fresh|].
  intros n [p Hp]. simpl in Hp. by rewrite lookup_empty in Hp.
Qed.

(** A callback settles the promise of [n] exactly when it takes the
    entry of [n] out of the map. *)
Lemma step_settles n st ev :
  CoreInv st → TimerInv st →
  settledTimes n (step st ev)
  = ((if bool_decide (is_Some (pendingRequests st !! n)
                      ∧ pendingRequests (step st ev) !! n = None)
      then 1 else 0)
     + settledTimes n st)%nat.
Proof.
  intros Hinv Ht.
  destruct (step_inv st ev Hinv Ht) as (Hinv' & _ & [Hm Hentry Hissued]).
  rewrite (inv_settled _ Hinv'), (inv_settled _ Hinv).
  pose proof (inv_entry _ Hinv n) as Hrange.
  pose proof (Hentry n) as Hback. pose proof (Hissued n) as Hnew.
  assert (∀ o : option Z, ¬ is_Some (None : option Z) ∧ ¬ (Some n : option Z) = None) as _
    by (split; [by intros [? ?] | done]).
  destruct (pendingRequests st !! n) as [p|] eqn:Hp;
    destruct (pendingRequests (step st ev) !! n) as [q|] eqn:Hq.
  - rewrite !bool_decide_eq_false_2 by (by intros [_ ?]). done.
  - destruct (Hrange p eq_refl) as [? _].
    rewrite (bool_decide_eq_true_2 (_ ∧ None = None)) by (split; [lia | done]).
    rewrite (bool_decide_eq_true_2 (is_Some _ ∧ _)) by (split; [by eexists | done]).
    rewrite bool_decide_eq_false_2 by (by intros [_ ?]). done.
  - rewrite (bool_decide_eq_false_2 (_ ∧ Some q = None)) by (by intros [_ ?]).
    rewrite (bool_decide_eq_false_2 (is_Some None ∧ _)) by (by intros [[? ?] _]).
    destruct (Hback q eq_refl) as [?|?]; [done|].
    rewrite bool_decide_eq_false_2 by (intros [? _]; lia). done.
  - rewrite (bool_decide_eq_false_2 (is_Some None ∧ _)) by (by intros [[? ?] _]).
    destruct (decide (1 ≤ n ≤ messageId st)) as [Hin|Hout].
    + rewrite !bool_decide_eq_true_2 by (split; [lia | done]). done.
    + rewrite !bool_decide_eq_false_2; [done | by intros [? _] |].
      intros [? _]. destruct Hnew as [? ?]; [lia | done].
Qed.

Lemma removals_settled n evs st :
  CoreInv st → TimerInv st →
  (removals n st evs + settledTimes n st)%nat = settledTimes n (fold_left step evs st).
Proof.
  revert st. induction evs as [|ev evs IH]; intros st Hinv Ht; [done|].
  simpl. destruct (step_inv st ev Hinv Ht) as (Hinv' & Ht' & _).
  rewrite <- (IH _ Hinv' Ht'), (step_settles n st ev Hinv Ht). lia.
Qed.

(** The timer of a pending request fires: the entry goes and the
    promise is rejected. *)
Lemma timeout_wins st n p :
  CoreInv st → TimerInv st → pendingRequests st !! n = Some p →
  let st' := step st (Timeout n) in
  pendingRequests st' !! n = None
  ∧ settlements st' = settlements st ++ [(n, RejectedWith "Request timeout")].
Proof.
  intros Hinv Ht Hp. simpl.
  rewrite bool_decide_eq_true_2 by (apply Ht; by eexists).
  unfold onTimeout. simpl. rewrite Hp.
  set (st0 := set_timers _ st).
  change (settle n _ _) with (retire n (RejectedWith "Request timeout") st0).
  destruct (retire_fields n (RejectedWith "Request timeout") st0)
    as (_ & _ & -> & _ & ->).
  split; [apply lookup_delete_eq | done].
Qed.

(** What [handleMessage] makes of one frame, a line that is not empty
    and holds no newline, followed by a newline: that line. *)
Lemma lines_of_frame line :
  line ≠ EmptyString → Text.includes Text.linefeed line = false →
  lines_of (Text.framed [line]) = [line].
Proof.
  intros Hline Hfree. unfold lines_of. cbn [Text.framed].
  assert (split_newline (line +:+ String Text.linefeed EmptyString) = [line; EmptyString])
    as ->.
  { clear Hline. induction line as [|c line IH]; [done|].
    rewrite ExecutorFacts.append_cons. simpl in Hfree |- *.
    apply orb_false_elim in Hfree as [Hc Hfree].
    change (Ascii.eqb c "010"%char) with (Ascii.eqb c Text.linefeed).
    by rewrite Hc, (IH Hfree). }
  simpl. by destruct line.
Qed.

(** A response to a pending request arrives: the entry goes and the
    promise is resolved with [params]. *)
Lemma response_wins st n p s data line parsed :
  CoreInv st → pendingRequests st !! n = Some p →
  is_Some (sockets st !! s) →
  lines_of data = [line] → JSON_parse line = Some parsed →
  property "id" parsed = Some (Some (JNum n)) →
  let st' := step st (SocketData s data) in
  pendingRequests st' !! n = None
  ∧ ∃ value, property "params" parsed = Some value
      ∧ settlements st' = settlements st ++ [(n, Resolved value)].
Proof.
  intros Hinv Hp [sk Hsk] Hlines Hparse Hid. simpl. rewrite Hsk.
  unfold LSP.handleMessage. rewrite Hlines. simpl. rewrite Hparse, Hid.
  destruct (inv_entry _ Hinv n p Hp) as [Hn ->].
  unfold has, get. simpl. rewrite Hp.
  rewrite (bool_decide_eq_true_2 (is_Some (Some n))) by (by eexists).
  replace (n =? 0) with false by (symmetry; apply Z.eqb_neq; lia). simpl.
  destruct parsed; try discriminate. simpl.
  change (settle n ?o _) with (retire n o st).
  destruct (retire_fields n (Resolved (member "params" members)) st)
    as (_ & _ & -> & _ & ->).
  split; [apply lookup_delete_eq|]. by eexists.
Qed.

(** A response naming an id that has no entry changes nothing. *)
Lemma late_response st n s data line parsed :
  pendingRequests st !! n = None →
  lines_of data = [line] → JSON_parse line = Some parsed →
  property "id" parsed = Some (Some (JNum n)) →
  step st (SocketData s data) = st.
Proof.
  intros Hp Hlines Hparse Hid. simpl.
  destruct (sockets st !! s); [|done].
  unfold LSP.handleMessage. rewrite Hlines. simpl. rewrite Hparse, Hid.
  unfold has. simpl. rewrite Hp.
  rewrite (bool_decide_eq_false_2 (is_Some None)) by (by intros [? ?]).
  by rewrite andb_false_r.
Qed.

(** A timer that finds no entry changes nothing but itself. *)
Lemma late_timeout st n :
  pendingRequests st !! n = None →
  step st (Timeout n) = set_timers (timers st ∖ {[ n ]}) st.
Proof.
  intros Hp. simpl. case_bool_decide as Harmed.
  - unfold onTimeout. simpl. by rewrite Hp.
  - replace (timers st ∖ {[ n ]}) with (timers st) by set_solver.
    by destruct st.
Qed.


(** Handling data writes no request. *)
Lemma handleMessages_wire lines st : same_wire st (handleMessages lines st).
Proof.
  revert st. induction lines as [|msg rest IH]; intros st; [done|].
  simpl.
  destruct (JSON_parse msg) as [parsed|]; [|done].
  destruct (property "id" parsed) as [idv|]; [|done].
  destruct (truthy idv && has idv (pendingRequests st)); [|apply IH].
  destruct (keyOf idv) as [n|]; [|done].
  destruct (get idv (pendingRequests st)) as [p|]; [|done].
  destruct (property "params" parsed) as [value|]; [|done].
  eapply same_wire_trans; [|apply IH].
  eapply same_wire_trans; [|apply same_wire_settle]. done.
Qed.

Lemma step_sock st ev : CoreInv st → SockInv st → SockInv (step st ev).
Proof.
  intros Hcore Hsock.
  destruct ev as [| |meth pars|s|s|s data|n]; simpl.
  - destruct Hsock as [Hclient Hids]. split; simpl.
    + intros s [= <-]. rewrite length_app. simpl. lia.
    + rewrite bind_app, Hids. simpl. by rewrite app_nil_r.
  - unfold disconnect. destruct (client st) as [s|]; [|done].
    destruct (same_wire_destroy s st) as (_ & Hm & _ & Hi).
    destruct Hsock as [_ Hids]. split; simpl; [done|]. by rewrite Hi, Hids, Hm.
  - destruct (client st) as [s|] eqn:Hc.
    + apply (SockInv_issue meth pars st s); [apply Hcore | done | done].
    + by rewrite sendRequest_disconnected.
  - destruct (sockets st !! s) as [sk|] eqn:Hsk; [|done].
    destruct (connecting sk && negb (destroyed sk)); [|done].
    set (st0 := set_sockets _ st).
    assert (SockInv st0) as Hsock0.
    { apply (SockInv_same st); [|done]. repeat split; simpl.
      - by rewrite length_insert.
      - by apply (requestIds_insert_same _ s sk). }
    unfold onConnect. destruct (client st0) as [c|] eqn:Hc.
    + pose proof (SockInv_issue "initialize" initializeParams st0 c
                    (inv_nonneg _ Hcore) Hsock0 Hc) as Hissued.
      destruct (sendRequest "initialize" initializeParams st0) as [[n|] st1];
        by apply (SockInv_same st1).
    + rewrite sendRequest_disconnected by done. by apply (SockInv_same st0).
  - destruct (sockets st !! s) as [sk|] eqn:Hsk; [|done].
    apply (SockInv_same (destroy s st)); [done|].
    apply (SockInv_same st); [apply same_wire_destroy | done].
  - destruct (sockets st !! s) as [sk|] eqn:Hsk; [|done].
    apply (SockInv_same st); [apply handleMessages_wire | done].
  - case_bool_decide; [|done]. unfold onTimeout. simpl.
    destruct (pendingRequests st !! n); [|by apply (SockInv_same st)].
    apply (SockInv_same st); [|done].
    eapply same_wire_trans; [|apply same_wire_settle]. done.
Qed.

Lemma run_from_sock evs st :
  CoreInv st → TimerInv st → SockInv st → SockInv (fold_left step evs st).
Proof.
  revert st. induction evs as [|ev evs IH]; intros st Hcore Ht Hsock; [done|].
  simpl. destruct (step_inv st ev Hcore Ht) as (? & ? & _).
  apply IH; [done | done | by apply step_sock].
Qed.

Lemma run_sock evs : SockInv (run evs).
Proof.
  apply run_from_sock; [apply CoreInv_fresh | | done].
  intros n [p Hp]. simpl in Hp. by rewrite lookup_empty in Hp.
Qed.

End Runs.

(** A stretch of the list m, m+1, ... is the list that starts where the
    stretch starts. *)
Lemma seqZ_segment (l1 l2 l3 : list Z) m n :
  0 ≤ n → l1 ++ l2 ++ l3 = seqZ m n →
  l2 = seqZ (m + Z.of_nat (length l1)) (Z.of_nat (length l2)).
Proof.
  intros Hn Heq.
  assert (n = Z.of_nat (length l1) + (Z.of_nat (length l2) + Z.of_nat (length l3)))
    as ->.
  { apply (f_equal length) in Heq. rewrite !length_app, length_seqZ in Heq. lia. }
  rewrite !seqZ_app in Heq by lia.
  apply app_inj_1 in Heq as [_ Heq]; [|by rewrite length_seqZ; lia].
  apply app_inj_1 in Heq as [Heq _]; [done|by rewrite length_seqZ; lia].
Qed.

(** C6, as the claim states it, fails: after a disconnect the client
    connects again, and the [initialize] request of the second
    connection, the first request on it, carries id 2. *)
Lemma second_connection_starts_at_2 :
  let st := run Samples.parseSample
              [CallConnect; SocketConnected 0; CallDisconnect;
               CallConnect; SocketConnected 1] in
  written <$> sockets st !! 1%nat
  = Some [mkMessage "2.0" (Some 2) (Some "initialize"%string) (Some initializeParams)].
Proof. vm_compute. reflexivity. Qed.

(** C6, amended: the counter belongs to the client and is never reset.
    The ids written by a client, connection after connection, are
    1, 2, 3, ...: the first request of a fresh client (its first
    [initialize]) gets 1 and every request the next integer.  Hence no
    id is used twice, within a connection or across connections, the
    ids of one connection are consecutive and start after those of the
    earlier connections, and every pending request has one of these
    ids. *)
Theorem correlation_ids JSON_parse evs :
  let st := run JSON_parse evs in
  sockets st ≫= requestIds = seqZ 1 (messageId st)
  ∧ NoDup (sockets st ≫= requestIds)
  ∧ (∀ s sk, sockets st !! s = Some sk →
       requestIds sk
       = seqZ (1 + Z.of_nat (length (take s (sockets st) ≫= requestIds)))
              (Z.of_nat (length (requestIds sk))))
  ∧ (∀ n, is_Some (pendingRequests st !! n) → n ∈ sockets st ≫= requestIds).
Proof.
  intros st.
  destruct (run_inv JSON_parse evs) as [Hcore _]. fold st in Hcore.
  destruct (run_sock JSON_parse evs) as [_ Hids]. fold st in Hids.
  split; [done|]. split; [rewrite Hids; apply NoDup_seqZ|]. split.
  - intros s sk Hs.
    apply (seqZ_segment _ _ (drop (S s) (sockets st) ≫= requestIds) 1 (messageId st)).
    + apply Hcore.
    + rewrite <- Hids. rewrite <- (take_drop_middle _ s sk Hs) at 3.
      by rewrite bind_app, bind_cons.
  - intros n [p Hp]. rewrite Hids. apply elem_of_seqZ.
    destruct (inv_entry _ Hcore n p Hp). lia.
Qed.

(** Two calls of [connect()] before either socket connects: both
    [connect] callbacks write on the socket [this.client] then holds,
    the second one.  The first socket carries no request and the second
    carries the ids 1 and 2. *)
Example overlapping_connects :
  let st := run Samples.parseSample
              [CallConnect; CallConnect; SocketConnected 0; SocketConnected 1] in
  requestIds <$> sockets st = [[]; [1; 2]].
Proof. vm_compute. reflexivity. Qed.

(** On the second connection of the sample run, the ids written are the
    single id 2. *)
Lemma correlation_ids_witness :
  let st := run Samples.parseSample
              [CallConnect; SocketConnected 0; CallDisconnect;
               CallConnect; SocketConnected 1] in
  ∃ sk, sockets st !! 1%nat = Some sk ∧ requestIds sk = [2].
Proof.
  intros st.
  destruct (correlation_ids Samples.parseSample
              [CallConnect; SocketConnected 0; CallDisconnect;
               CallConnect; SocketConnected 1]) as (_ & _ & Hsegment & _).
  fold st in Hsegment.
  destruct (sockets st !! 1%nat) as [sk|] eqn:Hsk; [|vm_compute in Hsk; discriminate].
  exists sk. split; [reflexivity|].
  rewrite (Hsegment 1%nat sk Hsk).
  assert (Some sk = Some (mkSocket false false
            [mkMessage "2.0" (Some 2) (Some "initialize"%string) (Some initializeParams)]))
    as [= ->] by (rewrite <- Hsk; vm_compute; reflexivity).
  vm_compute. reflexivity.
Defined.


(** *** Races on sample data *)

(** The timer of request 1 fires, then its response arrives: one
    rejection, and the response leaves the state as it was. *)
Example timeout_then_response :
  let st := run Samples.parseSample [CallConnect; SocketConnected 0; Timeout 1] in
  let late := SocketData 0 (Samples.response1 +:+ Samples.newline) in
  settlements st = [(1, RejectedWith "Request timeout")]
  ∧ step Samples.parseSample st late = st.
Proof. split; vm_compute; reflexivity. Qed.

(** The response to request 1 arrives, then its timer fires: one
    resolution, and the timer changes nothing but itself. *)
Example response_then_timeout :
  let st := run Samples.parseSample
              [CallConnect; SocketConnected 0;
               SocketData 0 (Samples.response1 +:+ Samples.newline)] in
  settlements st = [(1, Resolved (Some (JObj [])))]
  ∧ step Samples.parseSample st (Timeout 1) = set_timers ∅ st.
Proof. split; vm_compute; reflexivity. Qed.

(** *** Failed handshakes *)

(** A socket error destroys the socket before the listener runs: the
    listener resolves [connect()] to false and [isConnected()] answers
    false afterwards. *)
Lemma socket_error_disconnects JSON_parse st s :
  client st = Some s → is_Some (sockets st !! s) →
  let st' := step JSON_parse st (SocketError s) in
  connects st' = connects st ++ [(s, false)] ∧ isConnected st' = false.
Proof.
  intros Hc [sk Hs]. simpl. rewrite Hs. split.
  - unfold destroy. by rewrite Hs.
  - unfold isConnected, destroy. rewrite Hs. simpl. rewrite Hc.
    by rewrite list_lookup_insert_eq by (by eapply lookup_lt_Some).
Qed.

(** C3 at its failing input: the socket connects, [initialize] is sent
    with id 1, no response comes and the timer of request 1 fires.
    [connect()] resolves to false, but nothing destroys the socket or
    clears [this.client], and [isConnected()] answers true. *)
Theorem handshake_timeout_leaves_socket_open :
  let st := run Samples.parseSample [CallConnect; SocketConnected 0; Timeout 1] in
  settlements st = [(1, RejectedWith "Request timeout")]
  ∧ connectResult 0 st = Some false
  ∧ client st = Some 0%nat
  ∧ destroyed <$> sockets st !! 0%nat = Some false
  ∧ isConnected st = true.
Proof. repeat split; vm_compute; reflexivity. Qed.

(** *** Malformed lines *)

(** A line that [JSON.parse] rejects ends the loop: the lines after it
    are never looked at. *)
Lemma malformed_line_stops_loop JSON_parse msg rest st :
  JSON_parse msg = None → handleMessages JSON_parse (msg :: rest) st = st.
Proof. intros Hbad. simpl. by rewrite Hbad. Qed.

(** The lines before it were handled as usual. *)
Lemma lines_before_malformed JSON_parse before msg rest st :
  JSON_parse msg = None →
  (∀ line, line ∈ before → is_Some (JSON_parse line ≫= property "id")) →
  handleMessages JSON_parse (before ++ msg :: rest) st
  = handleMessages JSON_parse before st.
Proof.
  intros Hbad. revert st. induction before as [|line before IH]; intros st Hgood.
  - simpl. by rewrite Hbad.
  - assert (∀ l, l ∈ before → is_Some (JSON_parse l ≫= property "id")) as Hrest
      by (intros l Hl; apply Hgood; by right).
    destruct (Hgood line) as [idv Hline]; [by left|].
    simpl. destruct (JSON_parse line) as [parsed|]; [|done].
    simpl in Hline. rewrite Hline.
    destruct (truthy idv && has idv (pendingRequests st)); [|by apply IH].
    destruct (keyOf idv); [|done].
    destruct (get idv (pendingRequests st)); [|done].
    destruct (property "params" parsed); [|done]. by apply IH.
Qed.

(** C9 at its failing input: request 1 is pending and one data event
    delivers a line that is not JSON followed by the response to
    request 1.  The data event changes nothing: the response is never
    parsed and request 1 stays pending, although the same response
    delivered alone resolves it. *)
Theorem malformed_line_drops_following_response :
  let st := run Samples.parseSample [CallConnect; SocketConnected 0] in
  let data := Samples.garbage +:+ Samples.newline
              +:+ Samples.response1 +:+ Samples.newline in
  lines_of data = [Samples.garbage; Samples.response1]
  ∧ Samples.parseSample Samples.garbage = None
  ∧ (Samples.parseSample Samples.response1 ≫= property "id") = Some (Some (JNum 1))
  ∧ pendingRequests st !! 1 = Some 1
  ∧ step Samples.parseSample st (SocketData 0 data) = st
  ∧ settlements (step Samples.parseSample st
                   (SocketData 0 (Samples.response1 +:+ Samples.newline)))
    = [(1, Resolved (Some (JObj [])))].
Proof. repeat split; vm_compute; reflexivity. Qed.

End LSPFacts.

(** * Further properties of the process executor *)

Module ExecutorExtras.

Import Executor ExecutorFacts.

(** While the timer is scheduled nothing has settled the promise and no
    signal was sent; a signal sent means the timer callback settled it. *)
Lemma run_shape capture evs :
  let c := run capture evs in
  (timerArmed c = true → settled c = None ∧ kills c = [])
  ∧ (settled c = None → timerArmed c = true)
  ∧ (kills c = [] ∨ (kills c = [SIGTERM] ∧ ∃ out, settled c = Some (timedOut out))).
Proof.
  unfold run. induction evs as [|ev evs IH] using rev_ind.
  - simpl. auto.
  - rewrite fold_left_app. simpl.
    set (c := fold_left (handle capture) evs start) in *.
    destruct IH as (Harmed & Hpending & Hkills).
    destruct ev as [d|d| |code|msg]; simpl.
    + destruct capture; exact (conj Harmed (conj Hpending Hkills)).
    + destruct capture; exact (conj Harmed (conj Hpending Hkills)).
    + destruct (timerArmed c) eqn:Ht;
        [|rewrite Ht; exact (conj Harmed (conj Hpending Hkills))].
      destruct (Harmed eq_refl) as [Hs Hk].
      unfold resolve. simpl. rewrite Hs, Hk. simpl.
      split; [done|]. split; [done|]. right. split; [done|]. by eexists.
    + unfold resolve. simpl. destruct (settled c) eqn:Hs; simpl.
      * rewrite Hs. split; [done|]. split; [done|]. exact Hkills.
      * destruct (Harmed (Hpending eq_refl)) as [_ Hk].
        split; [done|]. split; [done|]. by left.
    + unfold resolve. simpl. destruct (settled c) eqn:Hs; simpl.
      * rewrite Hs. split; [done|]. split; [done|]. exact Hkills.
      * destruct (Harmed (Hpending eq_refl)) as [_ Hk].
        split; [done|]. split; [done|]. by left.
Qed.

(** A trace with an event that is not output data splits at the first
    such event. *)
Lemma first_terminal evs :
  forallb is_data evs = false →
  ∃ pre t post, evs = pre ++ t :: post ∧ forallb is_data pre = true ∧ is_data t = false.
Proof.
  induction evs as [|ev evs IH]; [done|].
  simpl. destruct (is_data ev) eqn:Hev; simpl.
  - intros (pre & t & post & -> & Hpre & Ht)%IH.
    exists (ev :: pre), t, post. simpl. by rewrite Hev, Hpre.
  - intros _. by exists [], ev, evs.
Qed.

(** The first event that is not output data settles the promise and
    takes the timer off the schedule. *)
Lemma terminal_settles capture pre t :
  forallb is_data pre = true → is_data t = false →
  let c := run capture (pre ++ [t]) in
  is_Some (settled c) ∧ timerArmed c = false.
Proof.
  intros Hpre Ht. rewrite run_app, (data_only capture pre Hpre).
  destruct t; try discriminate; simpl; split; by eauto.
Qed.

(** X1: when the [error] event of the child is the first event after any
    output, the call resolves with [success = false], empty output (what
    was captured is dropped), the message of the error and exit code -1;
    the timer is cleared and no signal is sent, whatever follows. *)
Theorem execute_error_first spawn self args options pre post message :
  spawn (mkSpawn (godotPath self) args
                 (default (projectPath self) (workingDirectory options)))
    = Spawned (pre ++ ErrorEvent message :: post) ->
  forallb is_data pre = true ->
  execute spawn self args options =
    (Fulfilled (mkResult false EmptyString (Some message) (Some (-1))), []).
Proof.
  intros Hspawn Hdata. unfold execute. rewrite Hspawn.
  set (capture := default true (captureOutput options)).
  rewrite run_app, (data_only capture pre Hdata).
  change (fold_left (handle capture) (ErrorEvent message :: post) ?c)
    with (fold_left (handle capture) post (handle capture c (ErrorEvent message))).
  set (c := handle capture _ _).
  destruct (after_settlement capture post c
              (mkResult false EmptyString (Some message) (Some (-1))))
    as (Hs & _ & Hk); [done | done |].
  simpl in Hs, Hk. by rewrite Hs, Hk.
Qed.

Lemma execute_error_first_witness :
  execute MoreSamples.missingCwd Samples.godot ["--version"%string] noOptions =
    (Fulfilled (mkResult false EmptyString (Some "spawn /bin/sh ENOENT"%string)
                  (Some (-1))), []).
Proof.
  apply (execute_error_first MoreSamples.missingCwd Samples.godot ["--version"%string]
           noOptions [] [Close (Some (-2))]); reflexivity.
Defined.

(** X2: when [spawn] hands back a child, the promise of [execute] is
    never rejected, and it stays pending exactly when the child's
    events are output data only: a timer, [close] or [error] event
    always resolves it. *)
Theorem execute_returns_iff spawn self args options evs :
  spawn (mkSpawn (godotPath self) args
                 (default (projectPath self) (workingDirectory options)))
    = Spawned evs ->
  ((execute spawn self args options).1 = Forever ↔ forallb is_data evs = true)
  ∧ (∀ e, (execute spawn self args options).1 ≠ Rejected e).
Proof.
  intros Hspawn. unfold execute. rewrite Hspawn. simpl.
  set (capture := default true (captureOutput options)).
  split.
  - split.
    + intros Hforever. destruct (forallb is_data evs) eqn:Hdata; [done|].
      destruct (first_terminal evs Hdata) as (pre & t & post & -> & Hpre & Ht).
      destruct (terminal_settles capture pre t Hpre Ht) as [[r Hr] Harmed].
      replace (pre ++ t :: post) with ((pre ++ [t]) ++ post) in Hforever
        by (by rewrite <- app_assoc).
      rewrite run_app in Hforever.
      destruct (after_settlement capture post _ r Hr Harmed) as (Hs & _).
      by rewrite Hs in Hforever.
    + intros Hdata. by rewrite (data_only capture evs Hdata).
  - intros e. by destruct (settled (run capture evs)).
Qed.

Lemma execute_returns_iff_witness :
  (execute Samples.slowChild Samples.godot ["--version"%string] noOptions).1 ≠ Forever.
Proof.
  intros Hforever.
  destruct (execute_returns_iff Samples.slowChild Samples.godot ["--version"%string]
              noOptions _ eq_refl) as [[Hdata _] _].
  apply Hdata in Hforever. discriminate.
Defined.

(** X3: the first event that is not output data decides the outcome:
    the events after it change neither the result nor the signals
    sent. *)
Theorem execute_first_terminal_decides spawn spawn' self args options pre t post :
  spawn (mkSpawn (godotPath self) args
                 (default (projectPath self) (workingDirectory options)))
    = Spawned (pre ++ t :: post) ->
  spawn' (mkSpawn (godotPath self) args
                  (default (projectPath self) (workingDirectory options)))
    = Spawned (pre ++ [t]) ->
  forallb is_data pre = true -> is_data t = false ->
  execute spawn self args options = execute spawn' self args options.
Proof.
  intros Hspawn Hspawn' Hpre Ht. unfold execute. rewrite Hspawn, Hspawn'.
  set (capture := default true (captureOutput options)).
  destruct (terminal_settles capture pre t Hpre Ht) as [[r Hr] Harmed].
  replace (pre ++ t :: post) with ((pre ++ [t]) ++ post) by (by rewrite <- app_assoc).
  rewrite (run_app capture (pre ++ [t]) post).
  destruct (after_settlement capture post _ r Hr Harmed) as (Hs & _ & Hk).
  by rewrite Hs, Hk, Hr.
Qed.

Lemma execute_first_terminal_decides_witness :
  execute Samples.slowChild Samples.godot ["--version"%string] noOptions
  = execute MoreSamples.slowChildCut Samples.godot ["--version"%string] noOptions.
Proof.
  apply (execute_first_terminal_decides Samples.slowChild MoreSamples.slowChildCut
           Samples.godot ["--version"%string] noOptions
           [StdoutData "load"; StderrData "warn"; StdoutData "ing"] TimerFired [Close None]);
    reflexivity.
Defined.

(** X4: [execute] sends the child no signal, or exactly one SIGTERM;
    and when it sent one, the call resolved with the timed-out result. *)
Theorem execute_signals spawn self args options :
  let outcome := execute spawn self args options in
  outcome.2 = []
  ∨ (outcome.2 = [SIGTERM]
     ∧ ∃ out, outcome.1 = Fulfilled (mkResult false out (Some "Process timed out"%string)
                                       (Some (-1)))).
Proof.
  unfold execute.
  destruct (spawn _) as [e|evs]; [by left|]. simpl.
  destruct (run_shape (default true (captureOutput options)) evs)
    as (_ & _ & [Hk|[Hk [out Hs]]]).
  - by left.
  - right. rewrite Hk, Hs. split; [done|]. by exists out.
Qed.

(** Without [captureOutput] the accumulators stay empty. *)
Lemma run_without_capture evs :
  let c := run false evs in
  outputAcc c = EmptyString ∧ errorOutput c = EmptyString
  ∧ ∀ r, settled c = Some r →
      output r = EmptyString ∧ (error r = None ∨ exitCode r = Some (-1)).
Proof.
  unfold run. induction evs as [|ev evs IH] using rev_ind; [done|].
  rewrite fold_left_app. simpl.
  set (c := fold_left (handle false) evs start) in *.
  destruct IH as (Hout & Herr & Hres).
  destruct ev as [d|d| |code|msg]; simpl; try done.
  - destruct (timerArmed c); [|done]. unfold resolve. simpl.
    destruct (settled c) eqn:Hs; simpl; [by rewrite Hs|].
    split; [done|]. split; [done|]. intros r [= <-]. simpl. auto.
  - unfold resolve. simpl. destruct (settled c) eqn:Hs; simpl; [by rewrite Hs|].
    split; [done|]. split; [done|]. intros r [= <-]. simpl. rewrite Hout, Herr. auto.
  - unfold resolve. simpl. destruct (settled c) eqn:Hs; simpl; [by rewrite Hs|].
    split; [done|]. split; [done|]. intros r [= <-]. simpl. auto.
Qed.

(** X5: with [captureOutput: false] every result has empty output, and
    it carries an error text only together with exit code -1 (timeout or
    spawn error), never for a process that closed. *)
Theorem execute_without_capture spawn self args options r :
  captureOutput options = Some false ->
  (execute spawn self args options).1 = Fulfilled r ->
  output r = EmptyString ∧ (error r = None ∨ exitCode r = Some (-1)).
Proof.
  intros Hcapture. unfold execute. rewrite Hcapture. simpl.
  destruct (spawn _) as [e|evs]; [done|]. simpl.
  destruct (run_without_capture evs) as (_ & _ & Hres).
  destruct (settled (run false evs)) as [r'|] eqn:Hs; [|done].
  intros [= <-]. by apply Hres.
Qed.

Lemma execute_without_capture_witness :
  output (mkResult false EmptyString None (Some 3)) = EmptyString
  ∧ (error (mkResult false EmptyString None (Some 3)) = None
     ∨ exitCode (mkResult false EmptyString None (Some 3)) = Some (-1)).
Proof.
  apply (execute_without_capture Samples.failingChild Samples.godot ["--version"%string]
           (mkOptions None (Some false) None)); reflexivity.
Defined.

(** *** Inline scripts *)

(** When [writeFile] throws, [runInlineScript] returns the failure
    result built from that error and leaves the file system as it was;
    neither [spawn] nor [unlink] has any say in the outcome. *)
Lemma write_failure_short_circuits spawn writeFile unlink join tmpdir uuid self code fs e :
  writeFile (tempFileName join tmpdir uuid) code = Some e ->
  ∀ spawn' unlink',
    runInlineScript spawn writeFile unlink join tmpdir uuid self code fs
    = (Fulfilled (caught e), fs)
    ∧ runInlineScript spawn' writeFile unlink' join tmpdir uuid self code fs
      = runInlineScript spawn writeFile unlink join tmpdir uuid self code fs.
Proof. intros Hw spawn' unlink'. unfold runInlineScript. by rewrite Hw. Qed.

(** X6: a result of [runInlineScript] is either the result of the run
    itself, and then the file was written and deleted again, or a
    failure of its own making, for an error thrown by [writeFile], by
    the run or by [unlink]: [success = false], empty output, an error
    text and exit code -1. *)
Theorem runInlineScript_result_shape spawn writeFile unlink join tmpdir uuid self code fs r :
  let tempFile := tempFileName join tmpdir uuid in
  let after := runInlineScript spawn writeFile unlink join tmpdir uuid self code fs in
  after.1 = Fulfilled r ->
  ((runScript spawn self tempFile).1 = Fulfilled r
   ∧ writeFile tempFile code = None ∧ unlink tempFile = None
   ∧ tempFile ∉ after.2)
  ∨ ((∃ e, writeFile tempFile code = Some e
           ∨ (runScript spawn self tempFile).1 = Rejected e
           ∨ unlink tempFile = Some e)
     ∧ success r = false ∧ output r = EmptyString
     ∧ is_Some (error r) ∧ exitCode r = Some (-1)).
Proof.
  intros tempFile after. unfold after, runInlineScript. fold tempFile.
  destruct (writeFile tempFile code) as [e|] eqn:Hw; simpl.
  { intros [= <-]. right. split; [exists e; by left|]. by repeat split. }
  destruct ((runScript spawn self tempFile).1) as [r'|e|] eqn:Hrun; simpl; [| |done].
  - destruct (unlink tempFile) as [e|] eqn:Hu; simpl.
    + intros [= <-]. right. split; [exists e; by right; right|]. by repeat split.
    + intros [= <-]. left. split; [done|]. split; [done|]. split; [done|].
      intros [_ Hout]%elem_of_difference. apply Hout. by apply elem_of_singleton.
  - intros [= <-]. right. split; [exists e; by right; left|]. by repeat split.
Qed.

Lemma runInlineScript_result_shape_witness :
  success (mkResult false EmptyString (Some "ENOSPC: no space left on device, write"%string)
             (Some (-1))) = false.
Proof.
  destruct (runInlineScript_result_shape Samples.quietChild MoreSamples.diskFull
              Samples.unlinkOk Samples.joinPosix "/tmp" "1b4e28ba" Samples.godot "print(1)" ∅
              (mkResult false EmptyString
                 (Some "ENOSPC: no space left on device, write"%string) (Some (-1))))
    as [(Hrun & _)|(_ & Hfailed & _)]; [reflexivity | discriminate | exact Hfailed].
Defined.

(** X7: the promise of [runInlineScript] is never rejected: every
    failure comes back as a result.  It stays pending only when the
    file was written and the spawned child never produces a timer,
    [close] or [error] event. *)
Theorem runInlineScript_never_rejects spawn writeFile unlink join tmpdir uuid self code fs :
  let outcome := (runInlineScript spawn writeFile unlink join tmpdir uuid self code fs).1 in
  (∀ e, outcome ≠ Rejected e)
  ∧ (outcome = Forever ↔
       writeFile (tempFileName join tmpdir uuid) code = None
       ∧ ∃ evs,
           spawn (mkSpawn (godotPath self)
                    ["--path"; projectPath self; "--headless"; "--script";
                     tempFileName join tmpdir uuid]%string
                    (projectPath self)) = Spawned evs
           ∧ forallb is_data evs = true).
Proof.
  unfold runInlineScript.
  destruct (writeFile _ _) as [e|] eqn:Hw; simpl.
  { split; [done|]. split; [done | by intros [? _]]. }
  unfold runScript.
  set (args := ["--path"; projectPath self; "--headless"; "--script";
                tempFileName join tmpdir uuid]%string).
  destruct (spawn (mkSpawn (godotPath self) args (projectPath self))) as [e|evs] eqn:Hspawn.
  - unfold execute. simpl. rewrite Hspawn. simpl.
    split; [done|]. split; [done | by intros [_ (evs & ? & _)]].
  - destruct (execute_returns_iff spawn self args noOptions evs Hspawn) as [Hiff Hrej].
    destruct ((execute spawn self args noOptions).1) as [r|e|] eqn:Hrun; simpl.
    + split; [by destruct (unlink _)|]. split.
      * by destruct (unlink _).
      * intros [_ (evs' & [= <-] & Hdata)]. by apply Hiff in Hdata.
    + by destruct (Hrej e).
    + split; [done|]. split; [|done]. intros _. split; [done|].
      exists evs. split; [done|]. by apply Hiff.
Qed.

(** X8: a result with [success = true] means the scratch file is gone:
    every path that leaves the file behind returns [success = false]. *)
Theorem success_means_file_removed spawn writeFile unlink join tmpdir uuid self code fs r :
  let after := runInlineScript spawn writeFile unlink join tmpdir uuid self code fs in
  after.1 = Fulfilled r -> success r = true ->
  tempFileName join tmpdir uuid ∉ after.2.
Proof.
  intros after. unfold after, runInlineScript.
  destruct (writeFile _ _) as [e|]; simpl; [by intros [= <-]|].
  destruct ((runScript spawn self (tempFileName join tmpdir uuid)).1) as [r'|e|]; simpl;
    [|by intros [= <-] | done].
  destruct (unlink _) as [e|]; simpl; [by intros [= <-]|].
  intros _ _ [_ Hout]%elem_of_difference. apply Hout. by apply elem_of_singleton.
Qed.

Lemma success_means_file_removed_witness :
  "/tmp/godot_mcp_1b4e28ba.gd"%string
  ∉ (runInlineScript Samples.quietChild Samples.writeOk Samples.unlinkOk
       Samples.joinPosix "/tmp" "1b4e28ba" Samples.godot "print(1)" ∅).2.
Proof.
  apply (success_means_file_removed Samples.quietChild Samples.writeOk Samples.unlinkOk
           Samples.joinPosix "/tmp" "1b4e28ba" Samples.godot "print(1)" ∅ (mkResult true "ok" None (Some 0)));
    reflexivity.
Defined.

Lemma append_length (s t : string) :
  String.length (s +:+ t) = (String.length s + String.length t)%nat.
Proof. induction s as [|a s IH]; [done|]. rewrite append_cons. simpl. by rewrite IH. Qed.

End ExecutorExtras.

(** * Properties of the configuration *)

Module ConfigFacts.

Import Config.

Lemma or_else_nonempty v d : d ≠ EmptyString → or_else v d ≠ EmptyString.
Proof. intros Hd. by destruct v as [[|a s]|]. Qed.

Lemma nonempty_true (s : string) : LSP.nonempty s = true ↔ s ≠ EmptyString.
Proof. by destruct s. Qed.

Lemma getDefaultGodotPath_nonempty p : getDefaultGodotPath p ≠ EmptyString.
Proof. unfold getDefaultGodotPath. by repeat case_decide. Qed.

(** X11: [validateConfig] answers [valid] exactly when both paths are
    non-empty, and exactly then its error list is empty; each of the two
    messages is listed exactly when its path is empty.  The port and
    the debug flag are never looked at. *)
Theorem validateConfig_valid_iff config :
  let v := validateConfig config in
  (valid v = true ↔ godotPath config ≠ EmptyString ∧ projectPath config ≠ EmptyString)
  ∧ (valid v = true ↔ validationErrors v = [])
  ∧ (godotPath config = EmptyString ↔ "GODOT_PATH is required"%string ∈ validationErrors v)
  ∧ (projectPath config = EmptyString
     ↔ "GODOT_PROJECT_PATH is required"%string ∈ validationErrors v).
Proof.
  unfold validateConfig.
  destruct (godotPath config) as [|a g]; destruct (projectPath config) as [|b q]; simpl;
    rewrite ?bool_decide_eq_true; repeat split; try done;
    rewrite ?elem_of_cons, ?elem_of_nil; try tauto;
    try (intros [? ?]; done); try (intros [?|[?|?]]; done);
    try (intros [?|?]; done); auto.
Qed.

(** X12: whatever the environment variables and the platform, the
    configuration read by [getConfigFromEnv] passes [validateConfig]
    with no error, as long as the working directory has a name: an
    unset or empty variable falls back to a non-empty default. *)
Theorem config_from_env_is_valid parseInt p :
  cwd p ≠ EmptyString ->
  validateConfig (getConfigFromEnv parseInt p) = mkValidation true [].
Proof.
  intros Hcwd. unfold validateConfig, getConfigFromEnv. simpl.
  pose proof (or_else_nonempty (env p !! "GODOT_PATH"%string) _
                (getDefaultGodotPath_nonempty p)) as Hg.
  pose proof (or_else_nonempty (env p !! "GODOT_PROJECT_PATH"%string) _ Hcwd) as Hp.
  apply nonempty_true in Hg, Hp. by rewrite Hg, Hp.
Qed.

Lemma config_from_env_is_valid_witness :
  validateConfig (getConfigFromEnv MoreSamples.parseDigits MoreSamples.emptyEnvironment)
  = mkValidation true [].
Proof. apply config_from_env_is_valid. discriminate. Defined.

(** X13: over a configuration with non-empty paths the constructor
    never yields an empty executable or project path: a non-empty
    argument is taken as it is, a missing or empty one falls back to
    the configuration. *)
Theorem newExecutor_paths config godotPath' projectPath' :
  godotPath config ≠ EmptyString -> projectPath config ≠ EmptyString ->
  let exec := newExecutor config godotPath' projectPath' in
  Executor.godotPath exec ≠ EmptyString
  ∧ Executor.projectPath exec ≠ EmptyString
  ∧ (∀ g, godotPath' = Some g → g ≠ EmptyString → Executor.godotPath exec = g)
  ∧ (godotPath' = None ∨ godotPath' = Some EmptyString →
       Executor.godotPath exec = godotPath config)
  ∧ (∀ q, projectPath' = Some q → q ≠ EmptyString → Executor.projectPath exec = q)
  ∧ (projectPath' = None ∨ projectPath' = Some EmptyString →
       Executor.projectPath exec = projectPath config).
Proof.
  intros Hg Hp. simpl. split; [by apply or_else_nonempty|].
  split; [by apply or_else_nonempty|].
  split; [by intros [|a g] -> ?|]. split; [by intros [->| ->]|].
  split; [by intros [|a g] -> ?|]. by intros [->| ->].
Qed.

Lemma newExecutor_paths_witness :
  Executor.godotPath (newExecutor (mkConfig "/usr/bin/godot" "/home/dev/game" (Some 6005) false)
                        (Some EmptyString) None) = "/usr/bin/godot"%string.
Proof.
  destruct (newExecutor_paths (mkConfig "/usr/bin/godot" "/home/dev/game" (Some 6005) false)
              (Some EmptyString) None) as (_ & _ & _ & Hfallback & _); try discriminate.
  apply Hfallback. by right.
Defined.

End ConfigFacts.

(** * Properties of the text helpers and of the code that uses them *)

Module TextFacts.

Import Text ExecutorFacts ExecutorExtras.

Lemma split_on_nonnil sep s : split_on sep s ≠ [].
Proof.
  induction s as [|c s IH]; [done|]. simpl.
  destruct (Ascii.eqb c sep); [done|]. by destruct (split_on sep s).
Qed.

(** Splitting around a separator splits both sides. *)
Lemma split_on_app sep (a b : string) :
  split_on sep (a +:+ String sep b) = split_on sep a ++ split_on sep b.
Proof.
  induction a as [|c a IH].
  - rewrite append_nil. simpl. by rewrite Ascii.eqb_refl.
  - rewrite append_cons. simpl. rewrite IH.
    destruct (Ascii.eqb c sep); [done|].
    pose proof (split_on_nonnil sep a). by destruct (split_on sep a).
Qed.

Lemma split_on_free sep s : includes sep s = false → split_on sep s = [s].
Proof.
  induction s as [|c s IH]; [done|]. simpl.
  destruct (Ascii.eqb c sep); [done|]. simpl. intros Hs. by rewrite IH.
Qed.

Lemma split_newline_split_on s : LSP.split_newline s = split_on linefeed s.
Proof.
  induction s as [|c s IH]; [done|]. simpl. rewrite IH. done.
Qed.

Lemma lines_of_tokens data : LSP.lines_of data = tokens linefeed data.
Proof. unfold LSP.lines_of, tokens. by rewrite split_newline_split_on. Qed.

Lemma tokens_app sep (a b : string) :
  tokens sep (a +:+ String sep b) = tokens sep a ++ tokens sep b.
Proof. unfold tokens. by rewrite split_on_app, List.filter_app. Qed.

Lemma tokens_free sep s :
  s ≠ EmptyString → includes sep s = false → tokens sep s = [s].
Proof.
  intros Hs Hfree. unfold tokens. rewrite split_on_free by done.
  simpl. by destruct s.
Qed.

Lemma tokens_empty sep : tokens sep EmptyString = [].
Proof. done. Qed.

(** No field of a split holds the separator. *)
Lemma split_on_fields sep s : Forall (λ f, includes sep f = false) (split_on sep s).
Proof.
  induction s as [|c s IH]; [by repeat constructor|]. simpl.
  destruct (Ascii.eqb c sep) eqn:Hc; [by constructor|].
  pose proof (split_on_nonnil sep s).
  destruct (split_on sep s) as [|f fs]; [done|].
  apply Forall_cons in IH as [Hf Hfs]. constructor; [|done]. simpl. by rewrite Hc, Hf.
Qed.

Lemma tokens_fields sep s :
  Forall (λ t, t ≠ EmptyString ∧ includes sep t = false) (tokens sep s).
Proof.
  unfold tokens. pose proof (split_on_fields sep s) as Hfields.
  induction Hfields as [|f fs Hf Hfs IH]; [constructor|].
  simpl. destruct f; simpl; [done|]. by constructor.
Qed.

Lemma includes_app c (a b : string) : includes c (a +:+ b) = includes c a || includes c b.
Proof.
  induction a as [|x a IH]; [done|]. rewrite append_cons. simpl. rewrite IH.
  by rewrite orb_assoc.
Qed.

Lemma replaceAll_removes c rep s :
  includes c rep = false → includes c (replaceAll c rep s) = false.
Proof.
  intros Hrep. induction s as [|a s IH]; [done|]. simpl.
  destruct (Ascii.eqb a c) eqn:Ha.
  - by rewrite includes_app, Hrep, IH.
  - simpl. by rewrite Ha, IH.
Qed.

Lemma replaceAll_absent c rep s : includes c s = false → replaceAll c rep s = s.
Proof.
  induction s as [|a s IH]; [done|]. simpl.
  destruct (Ascii.eqb a c); [done|]. simpl. intros Hs. by rewrite IH.
Qed.

Lemma replaceAll_length c r s :
  String.length (replaceAll c (String r EmptyString) s) = String.length s.
Proof.
  induction s as [|a s IH]; [done|]. simpl.
  destruct (Ascii.eqb a c); rewrite ?append_cons, ?append_nil; simpl; by rewrite IH.
Qed.

(** X30: no line [handleMessage] looks at is empty or holds a newline,
    and splitting around a newline splits both sides. *)
Theorem lines_of_spec :
  (∀ data, Forall (λ l, l ≠ EmptyString ∧ includes linefeed l = false) (LSP.lines_of data))
  ∧ (∀ a b, LSP.lines_of (a +:+ String linefeed b) = LSP.lines_of a ++ LSP.lines_of b).
Proof.
  split.
  - intros data. rewrite lines_of_tokens. apply tokens_fields.
  - intros a b. rewrite !lines_of_tokens. apply tokens_app.
Qed.

(** X14: the split of [handleMessage] undoes the framing of
    [sendRequest]: lines that are non-empty and hold no newline, each
    followed by a newline, come back as they were, in order. *)
Theorem lines_of_framed lines :
  Forall (λ l, l ≠ EmptyString ∧ includes linefeed l = false) lines ->
  LSP.lines_of (framed lines) = lines.
Proof.
  intros Hlines. rewrite lines_of_tokens.
  induction Hlines as [|l rest [Hl Hfree] _ IH]; [done|].
  simpl. rewrite tokens_app, IH, tokens_free by done. done.
Qed.

Lemma lines_of_framed_witness :
  LSP.lines_of (framed [Samples.response1; Samples.response2])
  = [Samples.response1; Samples.response2].
Proof.
  apply lines_of_framed. repeat constructor; (discriminate || vm_compute; reflexivity).
Defined.

Lemma joined_cons a b rest :
  joined (a :: b :: rest) = a +:+ String space (joined (b :: rest)).
Proof. done. Qed.

(** X15: the arguments [godot_execute] passes on are never empty and
    hold no space; splitting around a space splits both sides; and
    arguments that are non-empty and space-free, joined by single
    spaces, come back as they were. *)
Theorem splitArgs_spec :
  (∀ args, Forall (λ t, t ≠ EmptyString ∧ includes space t = false) (Tools.splitArgs args))
  ∧ (∀ a b, Tools.splitArgs (a +:+ String space b) = Tools.splitArgs a ++ Tools.splitArgs b)
  ∧ (∀ args, Forall (λ t, t ≠ EmptyString ∧ includes space t = false) args →
       Tools.splitArgs (joined args) = args).
Proof.
  unfold Tools.splitArgs. split; [intros; apply tokens_fields|].
  split; [intros; apply tokens_app|].
  intros args Hargs. induction Hargs as [|a rest [Ha Hfree] Hrest IH]; [done|].
  destruct rest as [|b rest].
  - simpl. by apply tokens_free.
  - rewrite joined_cons, tokens_app, IH, tokens_free by done. done.
Qed.

(** X16: the URI of [getFileUri] holds no backslash, is eight
    characters longer than the path, is the same for a path and for
    that path with its backslashes turned into slashes, and is the
    prefix [file:///] followed by the path itself when the path holds
    no backslash. *)
Theorem getFileUri_spec filePath :
  includes backslash (Operations.getFileUri filePath) = false
  ∧ String.length (Operations.getFileUri filePath) = (8 + String.length filePath)%nat
  ∧ Operations.getFileUri (replaceAll backslash "/" filePath) = Operations.getFileUri filePath
  ∧ (includes backslash filePath = false →
       Operations.getFileUri filePath = "file:///" +:+ filePath).
Proof.
  unfold Operations.getFileUri. split; [|split; [|split]].
  - rewrite includes_app, replaceAll_removes by done. done.
  - rewrite append_length, replaceAll_length. done.
  - by rewrite (replaceAll_absent backslash "/" (replaceAll backslash "/" filePath))
      by (by apply replaceAll_removes).
  - intros Hfree. by rewrite replaceAll_absent.
Qed.

(** X17: the text placed between quotation marks in a generated
    script reads back as the original: every quotation mark and
    backslash of the input is escaped, so no quotation mark of the
    input ends the literal. *)
Theorem escapeForScript_roundtrip s :
  Tools.unescape (Tools.escapeForScript s) = Some s.
Proof.
  unfold Tools.escapeForScript. induction s as [|a s IH]; [done|].
  simpl. destruct (Ascii.eqb_spec a backslash) as [->|Hbs].
  - rewrite !append_cons, append_nil. simpl. by rewrite IH.
  - simpl. destruct (Ascii.eqb_spec a quotation) as [->|Hq].
    + rewrite !append_cons, append_nil. simpl. by rewrite IH.
    + simpl. apply Ascii.eqb_neq in Hbs, Hq. by rewrite Hbs, Hq, IH.
Qed.

End TextFacts.

(** * Further properties of the LSP client *)

Module LSPExtras.

Import LSP Invariants LSPFacts Text TextFacts.

(** X18: after [disconnect()] the client is not connected, a second
    [disconnect()] changes nothing, [sendRequest] throws without using
    an id, and the socket that was current is destroyed; the counter,
    the pending requests, their timers and the settled promises are
    left as they were. *)
Theorem disconnect_spec st :
  let st' := disconnect st in
  isConnected st' = false
  ∧ disconnect st' = st'
  ∧ (∀ meth pars, sendRequest meth pars st' = (None, st'))
  ∧ messageId st' = messageId st
  ∧ pendingRequests st' = pendingRequests st
  ∧ timers st' = timers st
  ∧ settlements st' = settlements st
  ∧ (∀ s, client st = Some s → is_Some (sockets st !! s) →
       destroyed <$> sockets st' !! s = Some true).
Proof.
  unfold disconnect. destruct (client st) as [s|] eqn:Hc; simpl.
  - unfold isConnected, destroy, sendRequest.
    destruct (sockets st !! s) as [sk|] eqn:Hs; simpl; repeat split; try done.
    + intros s' [= <-] _.
      by rewrite list_lookup_insert_eq by (by eapply lookup_lt_Some).
    + intros s' Heq [sk' Hsk']. injection Heq as <-. congruence.
  - unfold isConnected, sendRequest. rewrite Hc. repeat split; try done.
Qed.

Section Drain.

Variable JSON_parse : string -> option JSValue.

Local Abbreviation step := (step JSON_parse).
Local Abbreviation run := (run JSON_parse).
Local Abbreviation handleMessages := (handleMessages JSON_parse).
Local Abbreviation handleMessage := (handleMessage JSON_parse).

Lemma timeout_fields st n :
  timers (step st (Timeout n)) = timers st ∖ {[ n ]}
  ∧ messageId (step st (Timeout n)) = messageId st.
Proof.
  simpl. case_bool_decide as Harmed.
  - unfold onTimeout. simpl. destruct (pendingRequests st !! n); [|done].
    set (st0 := set_timers _ st).
    change (settle n ?o _) with (retire n o st0).
    by destruct (retire_fields n (RejectedWith "Request timeout") st0)
      as (_ & -> & _ & -> & _).
  - split; [|done]. apply set_eq. intros k.
    rewrite elem_of_difference, elem_of_singleton. naive_solver.
Qed.

Lemma drain_timers l st :
  CoreInv st → TimerInv st →
  CoreInv (fold_left step (Timeout <$> l) st)
  ∧ TimerInv (fold_left step (Timeout <$> l) st)
  ∧ timers (fold_left step (Timeout <$> l) st) = timers st ∖ list_to_set l
  ∧ messageId (fold_left step (Timeout <$> l) st) = messageId st.
Proof.
  revert st. induction l as [|n l IH]; intros st Hcore Htimers.
  - simpl. split; [done|]. split; [done|]. split; [|done]. by rewrite difference_empty_L.
  - rewrite fmap_cons.
    change (fold_left ?f (?x :: ?xs) ?a) with (fold_left f xs (f a x)).
    destruct (step_inv JSON_parse st (Timeout n) Hcore Htimers) as (Hcore' & Ht' & _).
    destruct (IH _ Hcore' Ht') as (? & ? & Hts & Hm).
    destruct (timeout_fields st n) as [Hts' Hm'].
    split; [done|]. split; [done|]. split.
    + rewrite Hts, Hts', list_to_set_cons. apply set_eq. intros k.
      rewrite !elem_of_difference, elem_of_union. tauto.
    + rewrite Hm. exact Hm'.
Qed.

(** X19: no request is left pending for ever: once every scheduled
    timer of a reachable state has fired, the pending map and the timer
    set are empty and every request issued so far has been settled
    exactly once. *)
Theorem timers_drain_pending evs :
  let st := run evs in
  let st' := fold_left step (Timeout <$> elements (timers st)) st in
  pendingRequests st' = ∅
  ∧ timers st' = ∅
  ∧ ∀ n, 1 ≤ n ≤ messageId st → settledTimes n st' = 1%nat.
Proof.
  intros st st'. destruct (run_inv JSON_parse evs) as [Hcore Htimers].
  destruct (drain_timers (elements (timers st)) st Hcore Htimers)
    as (Hcore' & Htimers' & Hts & Hm). fold st' in Hcore', Htimers', Hts, Hm.
  assert (timers st' = ∅) as Hempty.
  { rewrite Hts. apply set_eq. intros k.
    rewrite elem_of_difference, elem_of_list_to_set, elem_of_elements. set_solver. }
  assert (pendingRequests st' = ∅) as Hpending.
  { apply map_empty. intros k.
    destruct (pendingRequests st' !! k) as [p|] eqn:Hk; [|done].
    assert (k ∈ timers st') as Hin by (apply Htimers'; by eexists).
    rewrite Hempty in Hin. set_solver. }
  split; [done|]. split; [done|].
  intros n Hn. rewrite (inv_settled _ Hcore' n), Hm, Hpending, lookup_empty.
  by rewrite bool_decide_eq_true_2.
Qed.

(** A line is skipped when its id is no number, is zero, or names no
    entry. *)
Lemma handleMessages_unmatched lines st :
  (∀ line parsed n, line ∈ lines → JSON_parse line = Some parsed →
     property "id" parsed = Some (Some (JNum n)) → pendingRequests st !! n = None) →
  handleMessages lines st = st.
Proof.
  induction lines as [|line lines IH]; intros Hun; [done|].
  simpl. destruct (JSON_parse line) as [parsed|] eqn:Hparse; [|done].
  destruct (property "id" parsed) as [idv|] eqn:Hid; [|done].
  assert (has idv (pendingRequests st) = false) as ->.
  { unfold has. destruct idv as [[]|]; simpl; try done.
    rewrite (Hun line parsed n); [|by left|done|done].
    by apply bool_decide_eq_false_2; intros [? ?]. }
  rewrite andb_false_r. apply IH. intros l p n Hl. apply Hun. by right.
Qed.

(** X20: a data event none of whose lines names a pending request
    (the id is missing, is no number, or has no entry) changes
    nothing. *)
Theorem unmatched_data_ignored st s data :
  (∀ line parsed n, line ∈ lines_of data → JSON_parse line = Some parsed →
     property "id" parsed = Some (Some (JNum n)) → pendingRequests st !! n = None) ->
  step st (SocketData s data) = st.
Proof.
  intros Hun. simpl. destruct (sockets st !! s); [|done].
  by apply handleMessages_unmatched.
Qed.

(** Lines that parse to something other than [null] never end the loop. *)
Lemma handleMessages_app lines1 lines2 st :
  (∀ line, line ∈ lines1 → is_Some (JSON_parse line ≫= property "id")) →
  handleMessages (lines1 ++ lines2) st = handleMessages lines2 (handleMessages lines1 st).
Proof.
  revert st. induction lines1 as [|line lines1 IH]; intros st Hgood; [done|].
  assert (∀ l, l ∈ lines1 → is_Some (JSON_parse l ≫= property "id")) as Hrest
    by (intros l Hl; apply Hgood; by right).
  destruct (Hgood line) as [idv Hline]; [by left|].
  simpl. destruct (JSON_parse line) as [parsed|]; [|done].
  simpl in Hline. rewrite Hline.
  destruct (truthy idv && has idv (pendingRequests st)) eqn:Hmatch; [|by apply IH].
  apply andb_prop in Hmatch as [_ Hhas]. unfold has, get in *.
  destruct (keyOf idv) as [n|]; [|done].
  apply bool_decide_eq_true in Hhas as [p Hp]. rewrite Hp.
  destruct parsed; try done; simpl; by apply IH.
Qed.

(** X21: when every line of a first chunk parses to a value other than
    [null], delivering it and a second chunk in one data event,
    separated by a newline, is the same as delivering them one after
    the other. *)
Theorem data_chunks_compose st data1 data2 :
  (∀ line, line ∈ lines_of data1 → is_Some (JSON_parse line ≫= property "id")) ->
  handleMessage (data1 +:+ String linefeed data2) st
  = handleMessage data2 (handleMessage data1 st).
Proof.
  intros Hgood. unfold LSP.handleMessage.
  rewrite !lines_of_tokens, tokens_app, <- !lines_of_tokens.
  by apply handleMessages_app.
Qed.

End Drain.

Lemma unmatched_data_ignored_witness :
  let st := LSP.run Samples.parseSample [CallConnect; SocketConnected 0] in
  LSP.step Samples.parseSample st (SocketData 0 (Samples.response2 +:+ Samples.newline)) = st.
Proof.
  intros st. apply unmatched_data_ignored.
  intros line parsed n Hline Hparse Hid.
  assert (lines_of (Samples.response2 +:+ Samples.newline) = [Samples.response2]) as Hlines
    by (vm_compute; reflexivity).
  rewrite Hlines in Hline. apply list_elem_of_singleton in Hline as ->.
  assert (Samples.parseSample Samples.response2
          = Some (JObj [("jsonrpc"%string, JStr "2.0"); ("id"%string, JNum 2);
                        ("params"%string, JArr [])])) as Hsample
    by (vm_compute; reflexivity).
  rewrite Hsample in Hparse. injection Hparse as <-.
  vm_compute in Hid. injection Hid as <-. vm_compute. reflexivity.
Defined.

Lemma data_chunks_compose_witness :
  let st := LSP.run Samples.parseSample [CallConnect; SocketConnected 0] in
  LSP.handleMessage Samples.parseSample
    (Samples.response1 +:+ String linefeed (Samples.response2 +:+ Samples.newline)) st
  = LSP.handleMessage Samples.parseSample (Samples.response2 +:+ Samples.newline)
      (LSP.handleMessage Samples.parseSample Samples.response1 st).
Proof.
  intros st. apply data_chunks_compose. intros line Hline.
  assert (lines_of Samples.response1 = [Samples.response1]) as Hlines
    by (vm_compute; reflexivity).
  rewrite Hlines in Hline. apply list_elem_of_singleton in Hline as ->.
  vm_compute. by eexists.
Defined.

(** *** The handshake *)

Import Operations.

Lemma HandshakeInv_same st st' :
  connects st' = connects st → handshakes st' = handshakes st →
  length (sockets st') = length (sockets st) →
  HandshakeInv st → HandshakeInv st'.
Proof.
  intros Hc Hh Hl [Hconnects Hhandshakes]. split.
  - intros k b. rewrite Hc, Hl. apply Hconnects.
  - intros p k. rewrite Hh, Hl. apply Hhandshakes.
Qed.

Lemma HandshakeInv_resolveConnect k b st :
  (k < length (sockets st))%nat → HandshakeInv st → HandshakeInv (resolveConnect k b st).
Proof.
  intros Hk [Hconnects Hhandshakes]. split; [|done].
  intros k' b'. simpl. rewrite elem_of_app, list_elem_of_singleton.
  intros [Hin|[= -> ->]]; [by eapply Hconnects | done].
Qed.

Lemma write_length s m st : length (sockets (write s m st)) = length (sockets st).
Proof. unfold write. destruct (sockets st !! s); [|done]. simpl. by rewrite length_insert. Qed.

Lemma destroy_length s st : length (sockets (destroy s st)) = length (sockets st).
Proof. unfold destroy. destruct (sockets st !! s); [|done]. simpl. by rewrite length_insert. Qed.

Lemma HandshakeInv_settle p o st : HandshakeInv st → HandshakeInv (settle p o st).
Proof.
  intros Hinv. unfold settle.
  set (st1 := set_settlements _ st).
  assert (HandshakeInv st1) as Hinv1 by (by apply (HandshakeInv_same st)).
  case_bool_decide; [|done].
  destruct (handshakes st !! p) as [k|] eqn:Hk; [|done].
  pose proof (inv_handshakes _ Hinv p k Hk) as Hbound.
  destruct o.
  - apply HandshakeInv_resolveConnect.
    + unfold sendNotification. destruct (client st1); [|done]. by rewrite write_length.
    + apply (HandshakeInv_same st1); try done.
      * unfold sendNotification, write. by repeat case_match.
      * unfold sendNotification, write. by repeat case_match.
      * unfold sendNotification. destruct (client st1); [|done]. by rewrite write_length.
  - by apply HandshakeInv_resolveConnect.
Qed.

Lemma sendRequest_handshake meth pars st :
  let st' := (sendRequest meth pars st).2 in
  connects st' = connects st ∧ handshakes st' = handshakes st
  ∧ length (sockets st') = length (sockets st).
Proof.
  unfold sendRequest. destruct (client st) as [s|]; [|done]. simpl.
  unfold write. simpl. destruct (sockets st !! s); simpl; [|done].
  by rewrite length_insert.
Qed.

Section Handshake.

Variable JSON_parse : string -> option JSValue.

Lemma handleMessages_preserves (P : Client → Prop) lines st :
  (∀ st n p o, P st →
     P (settle p o (set_pendingRequests (delete n (pendingRequests st)) st))) →
  P st → P (LSP.handleMessages JSON_parse lines st).
Proof.
  intros Hsettle. revert st. induction lines as [|msg rest IH]; intros st HP; [done|].
  simpl.
  destruct (JSON_parse msg) as [parsed|]; [|done].
  destruct (property "id" parsed) as [idv|]; [|done].
  destruct (truthy idv && has idv (pendingRequests st)); [|by apply IH].
  destruct (keyOf idv) as [n|]; [|done].
  destruct (get idv (pendingRequests st)) as [p|]; [|done].
  destruct (property "params" parsed) as [value|]; [|done].
  apply IH. by apply Hsettle.
Qed.

Lemma step_handshake st ev :
  HandshakeInv st → HandshakeInv (LSP.step JSON_parse st ev).
Proof.
  intros Hinv.
  destruct ev as [| |meth pars|s|s|s data|n]; simpl.
  - destruct Hinv as [Hconnects Hhandshakes]. split; simpl.
    + intros k b Hin. rewrite length_app. simpl. apply Hconnects in Hin. lia.
    + intros p k Hin. rewrite length_app. simpl. apply Hhandshakes in Hin. lia.
  - unfold disconnect. destruct (client st) as [s|]; [|done].
    apply (HandshakeInv_same st); try done.
    + unfold destroy. by destruct (sockets st !! s).
    + unfold destroy. by destruct (sockets st !! s).
    + simpl. apply destroy_length.
  - destruct (sendRequest_handshake meth pars st) as (? & ? & ?).
    by apply (HandshakeInv_same st).
  - destruct (sockets st !! s) as [sk|] eqn:Hsk; [|done].
    destruct (connecting sk && negb (destroyed sk)); [|done].
    set (st0 := set_sockets _ st).
    assert (length (sockets st0) = length (sockets st)) as Hl0
      by (simpl; by rewrite length_insert).
    assert (HandshakeInv st0) as Hinv0 by (by apply (HandshakeInv_same st)).
    assert (s < length (sockets st0))%nat as Hs
      by (rewrite Hl0; by eapply lookup_lt_Some).
    unfold onConnect.
    destruct (sendRequest_handshake "initialize" initializeParams st0) as (Hc & Hh & Hl).
    destruct (sendRequest "initialize" initializeParams st0) as [[n|] st1]; simpl in *.
    + destruct Hinv0 as [Hconnects Hhandshakes]. split; simpl.
      * intros k b. rewrite Hc, Hl. apply Hconnects.
      * intros p k. rewrite Hh, Hl.
        intros [[<- <-]|[_ Hp]]%lookup_insert_Some; [done | by eapply Hhandshakes].
    + apply HandshakeInv_resolveConnect; [by rewrite Hl|].
      by apply (HandshakeInv_same st0).
  - destruct (sockets st !! s) as [sk|] eqn:Hsk; [|done].
    apply HandshakeInv_resolveConnect.
    + rewrite destroy_length. by eapply lookup_lt_Some.
    + apply (HandshakeInv_same st); try done.
      * unfold destroy. by destruct (sockets st !! s).
      * unfold destroy. by destruct (sockets st !! s).
      * apply destroy_length.
  - destruct (sockets st !! s) as [sk|] eqn:Hsk; [|done].
    unfold LSP.handleMessage. apply (handleMessages_preserves HandshakeInv); [|done].
    intros st' n p o HP. apply HandshakeInv_settle. by apply (HandshakeInv_same st').
  - case_bool_decide; [|done]. unfold onTimeout. simpl.
    destruct (pendingRequests st !! n); [|by apply (HandshakeInv_same st)].
    apply HandshakeInv_settle. by apply (HandshakeInv_same st).
Qed.

Lemma run_handshake evs : HandshakeInv (LSP.run JSON_parse evs).
Proof.
  unfold LSP.run. induction evs as [|ev evs IH] using rev_ind.
  - split; simpl; [by intros k b ?%elem_of_nil | by intros p k; rewrite lookup_empty].
  - rewrite fold_left_app. simpl. by apply step_handshake.
Qed.

Lemma find_app_none {A} (f : A → bool) l1 l2 :
  (∀ x, x ∈ l1 → f x = false) → List.find f (l1 ++ l2) = List.find f l2.
Proof.
  induction l1 as [|x l1 IH]; intros Hnone; [done|].
  simpl. rewrite (Hnone x) by (by left). apply IH. intros y Hy. apply Hnone. by right.
Qed.

Lemma unsettled_fresh st n :
  CoreInv st → messageId st < n → ∀ o, (n, o) ∉ settlements st.
Proof.
  intros Hcore Hn o Hin.
  pose proof (inv_settled _ Hcore n) as Hcount.
  rewrite bool_decide_eq_false_2 in Hcount by lia.
  unfold settledTimes in Hcount.
  assert ((n, o) ∈ filter (λ po, po.1 = n) (settlements st)) as Hf
    by (by apply list_elem_of_filter).
  destruct (filter _ _); [by apply elem_of_nil in Hf | done].
Qed.

(** After [connect()] and the socket's [connect] event on a client in
    state [st]: one more socket, on which [initialize] was written with
    the next id, and that request pending. *)
Lemma connect_then_connected st :
  let k := length (sockets st) in
  let n := messageId st + 1 in
  LSP.step JSON_parse (LSP.step JSON_parse st CallConnect) (SocketConnected k)
  = mkClient (Some k) n (<[ n := n ]> (pendingRequests st))
      (sockets st ++ [mkSocket false false
                        [mkMessage "2.0" (Some n) (Some "initialize"%string)
                           (Some initializeParams)]])
      ({[ n ]} ∪ timers st) (settlements st) (<[ n := k ]> (handshakes st)) (connects st).
Proof.
  intros k n. simpl. unfold connect. simpl.
  rewrite list_lookup_middle by done. simpl.
  unfold onConnect, sendRequest. simpl. unfold write. simpl.
  rewrite list_lookup_insert_eq by (rewrite length_app; simpl; lia). simpl.
  rewrite !list_insert_insert_eq.
  rewrite insert_app_r_alt by done. rewrite Nat.sub_diag. done.
Qed.

Lemma connectResult_new st k b :
  HandshakeInv st → k = length (sockets st) →
  snd <$> List.find (λ kb : nat * bool, bool_decide (kb.1 = k)) (connects st ++ [(k, b)])
  = Some b
  ∧ snd <$> List.find (λ kb : nat * bool, bool_decide (kb.1 = k)) (connects st) = None.
Proof.
  intros Hinv ->.
  assert (∀ x : nat * bool, x ∈ connects st →
            bool_decide (x.1 = length (sockets st)) = false) as Hnone.
  { intros [k' b'] Hin. apply bool_decide_eq_false_2. simpl.
    apply (inv_connects _ Hinv) in Hin. lia. }
  split.
  - rewrite find_app_none by done. simpl. by rewrite bool_decide_eq_true_2.
  - rewrite <- (app_nil_r (connects st)), find_app_none by done. done.
Qed.

(** The state after a handshake that the peer answers. *)
Lemma handshake_state st data line parsed :
  CoreInv st → HandshakeInv st →
  let k := length (sockets st) in
  let n := messageId st + 1 in
  lines_of data = [line] → JSON_parse line = Some parsed →
  property "id" parsed = Some (Some (JNum n)) →
  ∃ value,
    property "params" parsed = Some value
    ∧ LSP.step JSON_parse
        (LSP.step JSON_parse (LSP.step JSON_parse st CallConnect) (SocketConnected k))
        (SocketData k data)
      = mkClient (Some k) n (delete n (<[ n := n ]> (pendingRequests st)))
          (sockets st ++ [mkSocket false false
             [mkMessage "2.0" (Some n) (Some "initialize"%string) (Some initializeParams);
              mkMessage "2.0" None (Some "initialized"%string) (Some (JObj []))]])
          ({[ n ]} ∪ timers st) (settlements st ++ [(n, Resolved value)])
          (<[ n := k ]> (handshakes st)) (connects st ++ [(k, true)]).
Proof.
  intros Hcore Hhs k n Hlines Hparse Hid.
  pose proof (inv_nonneg _ Hcore) as Hnonneg.
  assert (n ∉ (settlements st).*1) as Hfresh.
  { intros ([n' o] & Heq & Hin)%list_elem_of_fmap. simpl in Heq. subst n'.
    by apply (unsettled_fresh st n Hcore ltac:(lia) o). }
  rewrite connect_then_connected. fold k n.
  simpl. rewrite list_lookup_middle by done.
  unfold LSP.handleMessage. rewrite Hlines. simpl. rewrite Hparse, Hid.
  unfold has, get. simpl. rewrite lookup_insert_eq.
  rewrite (bool_decide_eq_true_2 (is_Some (Some n))) by (by eexists).
  replace (n =? 0) with false by (symmetry; apply Z.eqb_neq; lia). simpl.
  destruct parsed; try discriminate. simpl.
  exists (member "params" members). split; [done|].
  unfold settle. simpl. rewrite (bool_decide_eq_true_2 _ Hfresh), lookup_insert_eq.
  unfold sendNotification, write. simpl. rewrite list_lookup_middle by done. simpl.
  unfold resolveConnect. simpl.
  by rewrite insert_app_r_alt, Nat.sub_diag by done.
Qed.

(** X22: from any reachable state, [connect()], the socket's [connect]
    event and a response to the [initialize] request resolve
    [connect()] to true, not before the response; the client is
    connected, the request is no longer pending, and the socket carries
    [initialize] followed by the [initialized] notification. *)
Theorem handshake_succeeds evs data line parsed :
  let st := LSP.run JSON_parse evs in
  let k := length (sockets st) in
  let n := messageId st + 1 in
  let st2 := LSP.step JSON_parse (LSP.step JSON_parse st CallConnect) (SocketConnected k) in
  let st3 := LSP.step JSON_parse st2 (SocketData k data) in
  lines_of data = [line] -> JSON_parse line = Some parsed ->
  property "id" parsed = Some (Some (JNum n)) ->
  connectResult k st2 = None
  ∧ connectResult k st3 = Some true
  ∧ isConnected st3 = true
  ∧ pendingRequests st3 !! n = None
  ∧ written <$> sockets st3 !! k
    = Some [mkMessage "2.0" (Some n) (Some "initialize"%string) (Some initializeParams);
            mkMessage "2.0" None (Some "initialized"%string) (Some (JObj []))].
Proof.
  intros st k n st2 st3 Hlines Hparse Hid.
  destruct (run_inv JSON_parse evs) as [Hcore _]. fold st in Hcore.
  pose proof (run_handshake evs) as Hhs. fold st in Hhs.
  destruct (connectResult_new st k true Hhs eq_refl) as [Htrue Hnone].
  destruct (handshake_state st data line parsed Hcore Hhs Hlines Hparse Hid)
    as (value & _ & Hstate).
  subst st3 st2 k n. cbv zeta in Hstate. rewrite Hstate.
  split; [rewrite connect_then_connected; exact Hnone|].
  split; [exact Htrue|].
  unfold isConnected. simpl. rewrite list_lookup_middle by done. simpl.
  split; [done|]. split; [apply lookup_delete_eq | done].
Qed.

(** *** The operations *)

Lemma settlement_new st n o :
  settledTimes n st = 0%nat →
  snd <$> List.find (λ po : Z * Settlement, bool_decide (po.1 = n))
            (settlements st ++ [(n, o)]) = Some o.
Proof.
  intros Hcount. rewrite find_app_none; [simpl; by rewrite bool_decide_eq_true_2|].
  intros [n' o'] Hin. apply bool_decide_eq_false_2. simpl. intros ->.
  unfold settledTimes in Hcount.
  assert ((n, o') ∈ filter (λ po, po.1 = n) (settlements st)) as Hf
    by (by apply list_elem_of_filter).
  destruct (filter _ _); [by apply elem_of_nil in Hf | done].
Qed.

Context {R : Type}.
Variable op : Operation R.


(** X28: on a client that is not connected an operation first calls
    [connect()]; if the socket then fails, the operation returns its
    fallback without having sent a request: the counter and the pending
    map are as before, and the client is not connected. *)
Theorem operation_connect_error evs :
  let st := LSP.run JSON_parse evs in
  let k := length (sockets st) in
  isConnected st = false ->
  call op st = (AwaitConnect k, connect st)
  ∧ let after := advance op JSON_parse (call op st) (SocketError k) in
    after.1 = Returned (opFallback op)
    ∧ messageId after.2 = messageId st
    ∧ pendingRequests after.2 = pendingRequests st
    ∧ isConnected after.2 = false.
Proof.
  intros st k Hdisconnected.
  pose proof (run_handshake evs) as Hhs. fold st in Hhs.
  destruct (connectResult_new st k false Hhs eq_refl) as [Hfalse _].
  assert (call op st = (AwaitConnect k, connect st)) as Hcall.
  { unfold call. by rewrite Hdisconnected. }
  rewrite Hcall. split; [done|].
  unfold advance, resume. cbn [fst snd].
  assert (LSP.step JSON_parse (connect st) (SocketError k)
          = mkClient (Some k) (messageId st) (pendingRequests st)
              (sockets st ++ [mkSocket false true []])
              (timers st) (settlements st) (handshakes st) (connects st ++ [(k, false)]))
    as ->.
  { simpl. unfold connect. simpl. rewrite list_lookup_middle by done.
    unfold destroy. simpl. rewrite list_lookup_middle by done. simpl.
    by rewrite insert_app_r_alt, Nat.sub_diag by done. }
  set (st' := mkClient _ _ _ _ _ _ _ _).
  assert (connectResult k st' = Some false) as -> by exact Hfalse.
  assert (isConnected st' = false) as Hdestroyed.
  { unfold isConnected. simpl. by rewrite list_lookup_middle. }
  unfold afterConnect. by rewrite Hdestroyed.
Qed.

(** X29: on a client that is not connected an operation waits through
    the handshake: after the socket's [connect] event it is still
    waiting for [connect()], and after the response to [initialize] it
    has sent its own request with the next id on the same socket, after
    the [initialized] notification. *)
Theorem operation_connects_first evs data line parsed :
  let st := LSP.run JSON_parse evs in
  let k := length (sockets st) in
  let n := messageId st + 1 in
  isConnected st = false ->
  lines_of data = [line] -> JSON_parse line = Some parsed ->
  property "id" parsed = Some (Some (JNum n)) ->
  let after := runCall op JSON_parse st [SocketConnected k; SocketData k data] in
  (advance op JSON_parse (call op st) (SocketConnected k)).1 = AwaitConnect k
  ∧ after.1 = AwaitResponse (n + 1)
  ∧ pendingRequests after.2 !! (n + 1) = Some (n + 1)
  ∧ written <$> sockets after.2 !! k
    = Some [mkMessage "2.0" (Some n) (Some "initialize"%string) (Some initializeParams);
            mkMessage "2.0" None (Some "initialized"%string) (Some (JObj []));
            mkMessage "2.0" (Some (n + 1)) (Some (opMethod op)) (Some (opParams op))].
Proof.
  intros st k n Hdisconnected Hlines Hparse Hid.
  destruct (run_inv JSON_parse evs) as [Hcore _]. fold st in Hcore.
  pose proof (run_handshake evs) as Hhs. fold st in Hhs.
  destruct (connectResult_new st k true Hhs eq_refl) as [Htrue Hnone].
  destruct (handshake_state st data line parsed Hcore Hhs Hlines Hparse Hid)
    as (value & _ & Hstate).
  assert (call op st = (AwaitConnect k, LSP.step JSON_parse st CallConnect)) as Hcall.
  { unfold call. by rewrite Hdisconnected. }
  assert (advance op JSON_parse (call op st) (SocketConnected k)
          = (AwaitConnect k,
             LSP.step JSON_parse (LSP.step JSON_parse st CallConnect) (SocketConnected k)))
    as Hfirst.
  { rewrite Hcall. unfold advance, resume. cbn [fst snd].
    rewrite connect_then_connected. unfold connectResult. cbn [connects].
    by rewrite Hnone. }
  split; [by rewrite Hfirst|].
  unfold runCall. cbn [fold_left]. rewrite Hfirst.
  subst k n. cbv zeta in Hstate. unfold advance. cbn [fst snd]. rewrite Hstate.
  unfold resume. unfold connectResult. cbn [connects]. rewrite Htrue.
  unfold afterConnect, isConnected. cbn [client sockets].
  rewrite list_lookup_middle by done. cbn [destroyed negb].
  unfold sendRequest. cbn [client messageId]. unfold write. simpl.
  rewrite list_lookup_middle by done. simpl.
  rewrite insert_app_r_alt, Nat.sub_diag by done. simpl.
  rewrite list_lookup_middle by done. simpl.
  split; [done|]. split; [apply lookup_insert_eq | done].
Qed.

End Handshake.

Lemma handshake_succeeds_witness :
  connectResult 0
    (LSP.run Samples.parseSample
       [CallConnect; SocketConnected 0;
        SocketData 0 (Samples.response1 +:+ Samples.newline)]) = Some true.
Proof.
  destruct (handshake_succeeds Samples.parseSample []
              (Samples.response1 +:+ Samples.newline) Samples.response1
              (JObj [("jsonrpc"%string, JStr "2.0"); ("id"%string, JNum 1);
                     ("params"%string, JObj [])]))
    as (_ & Hresult & _); [vm_compute; reflexivity ..|].
  exact Hresult.
Defined.


Lemma operation_connect_error_witness :
  (advance (findDefinitions "player.gd" 3 7) Samples.parseSample
     (call (findDefinitions "player.gd" 3 7) fresh) (SocketError 0)).1 = Returned [].
Proof.
  destruct (operation_connect_error Samples.parseSample (findDefinitions "player.gd" 3 7) [])
    as (_ & Hreturned & _); [vm_compute; reflexivity|].
  exact Hreturned.
Defined.

Lemma operation_connects_first_witness :
  (runCall (getCompletions "player.gd" 3 7) Samples.parseSample fresh
     [SocketConnected 0; SocketData 0 (Samples.response1 +:+ Samples.newline)]).1
  = AwaitResponse 2.
Proof.
  destruct (operation_connects_first Samples.parseSample (getCompletions "player.gd" 3 7) []
              (Samples.response1 +:+ Samples.newline) Samples.response1
              (JObj [("jsonrpc"%string, JStr "2.0"); ("id"%string, JNum 1);
                     ("params"%string, JObj [])]))
    as (_ & Hawait & _); [vm_compute; reflexivity ..|].
  exact Hawait.
Defined.

(** *** Diagnostics and results *)

(** X23: translating a concatenation of diagnostics gives the
    concatenation of the translations, list by list; absent diagnostics
    give two empty lists; and the two lists together are never longer
    than the input. *)
Theorem parseDiagnostics_app diags1 diags2 :
  let d := parseDiagnostics (Some (diags1 ++ diags2)) in
  let d1 := parseDiagnostics (Some diags1) in
  let d2 := parseDiagnostics (Some diags2) in
  errors d = errors d1 ++ errors d2
  ∧ warnings d = warnings d1 ++ warnings d2
  ∧ parseDiagnostics None = mkDiagnostics [] []
  ∧ (length (errors d1) + length (warnings d1) ≤ length diags1)%nat.
Proof.
  unfold parseDiagnostics. simpl default. rewrite !collect_all. simpl.
  rewrite !filter_app, !fmap_app. split; [done|]. split; [done|]. split; [done|].
  rewrite !length_fmap.
  induction diags1 as [|d diags1 IH]; [done|].
  destruct (decide (severity d = 1)) as [H1|H1].
  - rewrite filter_cons_True by done.
    rewrite (filter_cons_False (λ d, severity d = 2)) by lia. simpl. lia.
  - rewrite filter_cons_False by done.
    destruct (decide (severity d = 2)).
    + rewrite filter_cons_True by done. simpl. lia.
    + rewrite filter_cons_False by done. simpl. lia.
Qed.

(** X24: [godot_validate_script] reports a script valid exactly when
    no diagnostic has severity 1; warnings and other severities do not
    count. *)
Theorem scriptValid_iff diags :
  Tools.scriptValid (parseDiagnostics (Some diags)) = true
  ↔ Forall (λ d, severity d ≠ 1) diags.
Proof.
  unfold Tools.scriptValid, parseDiagnostics. simpl default. rewrite collect_all. simpl.
  rewrite bool_decide_eq_true, length_fmap.
  induction diags as [|d diags IH]; [by split|].
  destruct (decide (severity d = 1)) as [H1|H1].
  - rewrite filter_cons_True by done. simpl. split; [done|].
    intros [Hd _]%Forall_cons. done.
  - rewrite filter_cons_False by done. rewrite IH, Forall_cons. tauto.
Qed.

(** X25: when the reported positions are not negative, every issue
    has line and column at least 1, and the issues carry the severity
    of their list. *)
Theorem parseDiagnostics_one_based diags :
  Forall (λ d, 0 ≤ line (rangeStart (range d)) ∧ 0 ≤ column (rangeStart (range d))) diags ->
  let d := parseDiagnostics (Some diags) in
  Forall (λ i, 1 ≤ issueLine i ∧ 1 ≤ issueColumn i ∧ issueSeverity i = "error"%string)
         (errors d)
  ∧ Forall (λ i, 1 ≤ issueLine i ∧ 1 ≤ issueColumn i ∧ issueSeverity i = "warning"%string)
           (warnings d).
Proof.
  intros Hdiags. unfold parseDiagnostics. simpl default. rewrite collect_all. simpl.
  rewrite Forall_forall in Hdiags.
  split; apply Forall_fmap, Forall_forall; intros d [_ Hin]%list_elem_of_filter;
    destruct (Hdiags d Hin); simpl; repeat split; try done; lia.
Qed.

Lemma parseDiagnostics_one_based_witness :
  Forall (λ i, 1 ≤ issueLine i ∧ 1 ≤ issueColumn i ∧ issueSeverity i = "error"%string)
         [mkIssue 5 10 "x" "error"].
Proof.
  apply (parseDiagnostics_one_based
           [mkDiagnostic (mkRange (mkPosition 4 9) (mkPosition 4 12)) "x" 1;
            mkDiagnostic (mkRange (mkPosition 7 0) (mkPosition 7 1)) "hint" 4]).
  repeat constructor; done.
Defined.

(** X26: [findDefinitions] yields the empty list only for an empty
    array: a missing or null result gives a one-element list.
    [getHover] yields null or a truthy value, never an empty string.
    [getCompletions] yields an array as it is, the empty array when
    there is nothing under [items], and never a falsy value. *)
Theorem result_shapes result :
  (definitionsOf result = [] ↔ result = Some (JArr []))
  ∧ (definitionsOf None = [None] ∧ definitionsOf (Some JNull) = [Some JNull])
  ∧ (hoverOf result = JNull ∨ truthy (Some (hoverOf result)) = true)
  ∧ truthy (Some (completionsOf result)) = true
  ∧ (∀ items, completionsOf (Some (JArr items)) = JArr items)
  ∧ (optionalMember "items" result = None →
       (∀ items, result ≠ Some (JArr items)) → completionsOf result = JArr []).
Proof.
  split; [|split; [done|split; [|split; [|split; [done|]]]]].
  - destruct result as [[]|]; simpl; try (split; done).
    destruct items; simpl; split; done.
  - unfold hoverOf. destruct (optionalMember "contents" result) as [v|]; [|by left].
    destruct (truthy (Some v)) eqn:Hv; [by right | by left].
  - unfold completionsOf.
    destruct result as [[]|]; cbn [optionalMember]; try done.
    destruct (member "items" members) as [v|]; [|done].
    by destruct (truthy (Some v)) eqn:Hv.
  - intros Hnone Hnotarray. unfold completionsOf. rewrite Hnone.
    destruct result as [[]|]; try done. by destruct (Hnotarray items).
Qed.

End LSPExtras.
